(** * longhorn-manager, package [types]: naming, labels and disk validation

    A shallow embedding of [types/types.go].  Go strings are byte strings
    and are modelled by [string]; Go maps by [gmap]; [int] and [int64] by
    [Z] with the 64-bit wrap-around written out where the source does
    arithmetic; a Go [error] result by an [option] ([None] is [nil]). *)

From Stdlib Require Import ZArith Ascii String List Lia Bool.
From stdpp Require Import base tactics option list strings gmap fin_maps.

Open Scope string_scope.
#[local] Arguments String.append : simpl nomatch.

(** ** Go's [strings] package, on byte strings *)

Module GoStrings.

(** [strings.HasPrefix(s, prefix)] *)
Fixpoint HasPrefix (s prefix : string) {struct prefix} : bool :=
  match prefix, s with
  | EmptyString, _ => true
  | String p prefix', String c s' => if Ascii.eqb c p then HasPrefix s' prefix' else false
  | String _ _, EmptyString => false
  end.

(** [s[n:]] for [n <= len(s)] *)
Fixpoint drop_bytes (n : nat) (s : string) : string :=
  match n, s with
  | O, _ => s
  | S n', String _ s' => drop_bytes n' s'
  | S _, EmptyString => EmptyString
  end.

(** [s[:n]]; Go panics when [n > len(s)], which is [None] here. *)
Fixpoint slice_to (n : nat) (s : string) : option string :=
  match n, s with
  | O, _ => Some EmptyString
  | S n', String c s' => String c <$> slice_to n' s'
  | S _, EmptyString => None
  end.

(** [strings.TrimPrefix]: [s] without the leading [prefix], or [s] itself
    when it does not start with [prefix]. *)
Definition TrimPrefix (s prefix : string) : string :=
  if HasPrefix s prefix then drop_bytes (String.length prefix) s else s.

(** [strings.Contains(s, substr)] *)
Fixpoint Contains (s substr : string) : bool :=
  HasPrefix s substr ||
  match s with
  | EmptyString => false
  | String _ s' => Contains s' substr
  end.

(** [strings.Replace(s, old, new, -1)] for a one-byte [old] and a
    one-byte [new]: every occurrence is replaced. *)
Fixpoint ReplaceByte (s : string) (old new : ascii) : string :=
  match s with
  | EmptyString => EmptyString
  | String c s' => String (if Ascii.eqb c old then new else c) (ReplaceByte s' old new)
  end.

(** [s[:n]] for [n <= len(s)] *)
Fixpoint take_bytes (n : nat) (s : string) : string :=
  match n, s with
  | O, _ => EmptyString
  | S n', String c s' => String c (take_bytes n' s')
  | S _, EmptyString => EmptyString
  end.

(** [strings.HasSuffix]:
    [len(s) >= len(suffix) && s[len(s)-len(suffix):] == suffix] *)
Definition HasSuffix (s suffix : string) : bool :=
  (String.length suffix <=? String.length s)%nat
  && String.eqb (drop_bytes (String.length s - String.length suffix) s) suffix.

(** [strings.TrimSuffix] *)
Definition TrimSuffix (s suffix : string) : string :=
  if HasSuffix s suffix then take_bytes (String.length s - String.length suffix) s else s.

End GoStrings.

Import GoStrings.

(** ** Machine integers and [strconv.Atoi] *)

Module GoInt.

Open Scope Z_scope.

(** The value a signed [bits]-bit register holds after an arithmetic
    operation whose exact result is [z]. *)
Definition wrap (bits : Z) (z : Z) : Z :=
  (z + 2 ^ (bits - 1)) mod 2 ^ bits - 2 ^ (bits - 1).

(** [int] is 64 bits wide on the platforms the manager is built for. *)
Definition intSize : Z := 64.
Definition minInt : Z := - 2 ^ (intSize - 1).
Definition maxInt : Z := 2 ^ (intSize - 1) - 1.

(** [a + b] on [int] *)
Definition add (a b : Z) : Z := wrap intSize (a + b).

(** [a * b] on [int64] *)
Definition mul64 (a b : Z) : Z := wrap 64 (a * b).

(** [a / b] on [int64], [b] not zero: Go truncates toward zero. *)
Definition quo64 (a b : Z) : Z := wrap 64 (Z.quot a b).

Definition digit_of (c : ascii) : option Z :=
  let n := Z.of_N (N_of_ascii c) in
  if (48 <=? n) && (n <=? 57) then Some (n - 48) else None.

Fixpoint parse_digits (acc : Z) (s : string) : option Z :=
  match s with
  | EmptyString => Some acc
  | String c s' =>
      match digit_of c with
      | Some d => parse_digits (acc * 10 + d) s'
      | None => None
      end
  end.

(** [strconv.Atoi], from the documentation of the Go standard library:
    an optional sign followed by one or more decimal digits; a value
    outside the range of [int] is an error.  [None] stands for a
    non-nil error. *)
Definition Atoi (s : string) : option Z :=
  match s with
  | EmptyString => None
  | String c rest =>
      let '(neg, ds) :=
        if Ascii.eqb c "-" then (true, rest)
        else if Ascii.eqb c "+" then (false, rest)
        else (false, s) in
      match ds with
      | EmptyString => None
      | _ =>
          match parse_digits 0 ds with
          | Some n =>
              let v := if neg then - n else n in
              if (minInt <=? v) && (v <=? maxInt) then Some v else None
          | None => None
          end
      end
  end.

End GoInt.

(** ** Errors *)

(** Go's [error] interface: anything with an [Error() string] method. *)
Class GoError (E : Type) := Error : E → string.

(** The value of [fmt.Errorf] and [errors.New]: an error that is its text. *)
Definition errorString := string.
#[export] Instance errorString_error : GoError errorString := λ s, s.

Module NotFoundError.
Record t := { Name : string }.
(** [fmt.Sprintf("cannot find %v", e.Name)] *)
Definition Error (e : t) : string := "cannot find " +:+ Name e.
End NotFoundError.

#[export] Instance NotFoundError_error : GoError NotFoundError.t := NotFoundError.Error.

Definition ErrorIsNotFound {E} `{GoError E} (err : E) : bool :=
  Contains (Error err) "cannot find".

Definition ErrorAlreadyExists {E} `{GoError E} (err : E) : bool :=
  Contains (Error err) "already exists".

(** ** Constants *)

Definition LonghornLabelKeyPrefix := "longhorn.io".
Definition LonghornLabelEngineImage := "engine-image".
Definition LonghornLabelInstanceManager := "instance-manager".
Definition LonghornLabelNode := "node".
Definition LonghornLabelDiskUUID := "disk-uuid".
Definition LonghornLabelInstanceManagerType := "instance-manager-type".
Definition LonghornLabelInstanceManagerImage := "instance-manager-image".
Definition LonghornLabelVolume := "longhornvolume".
Definition LonghornLabelShareManager := "share-manager".
Definition LonghornLabelShareManagerImage := "share-manager-image".
Definition LonghornLabelBackingImage := "backing-image".
Definition LonghornLabelBackingImageManager := "backing-image-manager".
Definition LonghornLabelManagedBy := "managed-by".
Definition LonghornLabelCronJobTask := "job-task".
Definition LonghornLabelBackingImageDataSource := "backing-image-data-source".

Definition KubernetesFailureDomainRegionLabelKey := "failure-domain.beta.kubernetes.io/region".
Definition KubernetesFailureDomainZoneLabelKey := "failure-domain.beta.kubernetes.io/zone".
Definition KubernetesTopologyRegionLabelKey := "topology.kubernetes.io/region".
Definition KubernetesTopologyZoneLabelKey := "topology.kubernetes.io/zone".

Definition DefaultDiskPrefix := "default-disk-".
Definition ControlPlaneName := "longhorn-manager".
Definition ImageChecksumNameLength : nat := 8.

Definition engineImagePrefix := "ei-".
Definition instanceManagerImagePrefix := "imi-".
Definition shareManagerImagePrefix := "smi-".

(** ** Data model *)

(** [DiskSpec] is declared in another file of the package; its fields are
    the ones [CreateDefaultDisk] and [CreateDisksFromAnnotation] use. *)
Record DiskSpec := {
  Path : string;
  AllowScheduling : bool;
  EvictionRequested : bool;
  StorageReserved : Z;
  Tags : list string;
}.

(** [type DiskSpecWithName struct { DiskSpec; Name string }] *)
Record DiskSpecWithName := {
  embedded : DiskSpec;
  Name : string;
}.

(** [util.DiskInfo], as the filesystem-metadata collaborator returns it. *)
Record DiskInfo := {
  Fsid : string;
  DiskInfo_Path : string;
  StorageMaximum : Z;
  StorageAvailable : Z;
}.

(** [RecurringJob] is declared in another file of the package; only its
    [Task] (a string type) is read here. *)
Record RecurringJob := { Task : string }.

(** [type InstanceManagerType string] *)
Definition InstanceManagerType := string.

#[export] Instance DiskSpec_eq_dec : EqDecision DiskSpec.
Proof. solve_decision. Defined.
#[export] Instance DiskSpecWithName_eq_dec : EqDecision DiskSpecWithName.
Proof. solve_decision. Defined.
#[export] Instance DiskInfo_eq_dec : EqDecision DiskInfo.
Proof. solve_decision. Defined.

(** ** Collaborators

    Package [util] and the Go standard library are outside this file. The
    pure ones are parameters; the filesystem is a state that every call
    reads and may change. *)

Class Collaborators := {
  (** [util.GetStringChecksum]: a hexadecimal digest *)
  GetStringChecksum : string → string;
  (** [util.ValidateTags] *)
  ValidateTags : list string → errorString + list string;
  (** [strings.TrimSpace] *)
  TrimSpace : string → string;
  (** [json.Unmarshal] into a [[]DiskSpecWithName] *)
  json_Unmarshal : string → errorString + list DiskSpecWithName;
}.

Class FileSystem (World : Type) := {
  (** [util.GetDiskInfo] *)
  GetDiskInfo : string → World → (errorString + DiskInfo) * World;
  (** [util.CreateDiskPathReplicaSubdirectory] *)
  CreateDiskPathReplicaSubdirectory : string → World → option errorString * World;
}.


(** ** Name transforms *)

Definition GetImageCanonicalName (image : string) : string :=
  ReplaceByte (ReplaceByte image ":" "-") "/" "-".

Definition GetShareManagerPodNameFromShareManagerName (smName : string) : string :=
  LonghornLabelShareManager +:+ "-" +:+ smName.

Definition GetShareManagerNameFromShareManagerPodName (podName : string) : string :=
  TrimPrefix podName (LonghornLabelShareManager +:+ "-").

Definition GetDaemonSetNameFromEngineImageName (engineImageName : string) : string :=
  "engine-image-" +:+ engineImageName.

Definition GetEngineImageNameFromDaemonSetName (dsName : string) : string :=
  TrimPrefix dsName "engine-image-".

(** ** Checksum-based identities *)

Section Identity.
Context `{Collaborators}.

(** [prefix + util.GetStringChecksum(strings.TrimSpace(image))[:ImageChecksumNameLength]];
    [None] is the run-time panic of the slice on a digest shorter than
    eight bytes. *)
Definition checksumName (prefix image : string) : option string :=
  String.append prefix <$> slice_to ImageChecksumNameLength (GetStringChecksum (TrimSpace image)).

Definition GetEngineImageChecksumName (image : string) : option string :=
  checksumName engineImagePrefix image.

Definition GetInstanceManagerImageChecksumName (image : string) : option string :=
  checksumName instanceManagerImagePrefix image.

Definition GetShareManagerImageChecksumName (image : string) : option string :=
  checksumName shareManagerImagePrefix image.

End Identity.

(** ** The regular expression of [ValidateEngineImageChecksumName] *)

Module GoRegexp.

(** The fragment of RE2 syntax the package uses. *)
Inductive regex :=
| Lit (s : string)                         (* a literal run of bytes *)
| Class (ranges : list (ascii * ascii))    (* [a-fA-F0-9] *)
| Cat (r1 r2 : regex)                      (* r1 r2 *)
| Repeat (r : regex) (n : nat).            (* r{n} *)

Definition in_range (c : ascii) (r : ascii * ascii) : bool :=
  (N_of_ascii (fst r) <=? N_of_ascii c)%N && (N_of_ascii c <=? N_of_ascii (snd r))%N.

Definition in_class (ranges : list (ascii * ascii)) (c : ascii) : bool :=
  existsb (in_range c) ranges.

(** The suffixes left after [r] has matched a prefix of [s], one per way
    of matching. *)
Fixpoint residuals (r : regex) (s : string) : list string :=
  match r with
  | Lit l => if HasPrefix s l then [drop_bytes (String.length l) s] else []
  | Class ranges =>
      match s with
      | String c s' => if in_class ranges c then [s'] else []
      | EmptyString => []
      end
  | Cat r1 r2 => flat_map (residuals r2) (residuals r1 s)
  | Repeat r n => Nat.iter n (flat_map (residuals r)) [s]
  end.

(** [regexp.MatchString("^" + r + "$", s)]: without the multi-line flag
    [^] and [$] match only at the two ends of the text. *)
Definition MatchWhole (r : regex) (s : string) : bool :=
  existsb (String.eqb "") (residuals r s).

End GoRegexp.

Import GoRegexp.

(** [fmt.Sprintf("^%s[a-fA-F0-9]{%d}$", engineImagePrefix, ImageChecksumNameLength)],
    between its two anchors. *)
Definition hexClass : list (ascii * ascii) := [("a", "f"); ("A", "F"); ("0", "9")]%char.

Definition engineImageChecksumPattern : regex :=
  Cat (Lit engineImagePrefix) (Repeat (Class hexClass) ImageChecksumNameLength).

Definition ValidateEngineImageChecksumName (name : string) : bool :=
  MatchWhole engineImageChecksumPattern name.

(** The shape the recognizer is meant to accept, said directly. *)
Definition isHexDigit (c : ascii) : bool :=
  existsb (Ascii.eqb c) (list_ascii_of_string "0123456789abcdefABCDEF").

Fixpoint allHexDigits (s : string) : bool :=
  match s with
  | EmptyString => true
  | String c s' => isHexDigit c && allHexDigits s'
  end.

(** ** Labels *)

Definition GetLonghornLabelKey (name : string) : string :=
  LonghornLabelKeyPrefix +:+ "/" +:+ name.

Definition GetBaseLabelsForSystemManagedComponent : gmap string string :=
  {[ GetLonghornLabelKey LonghornLabelManagedBy := ControlPlaneName ]}.

Definition GetLonghornLabelComponentKey : string := GetLonghornLabelKey "component".

Definition GetEngineImageLabels (engineImageName : string) : gmap string string :=
  let labels := GetBaseLabelsForSystemManagedComponent in
  let labels := <[GetLonghornLabelComponentKey := LonghornLabelEngineImage]> labels in
  let labels := <[GetLonghornLabelKey LonghornLabelEngineImage := engineImageName]> labels in
  labels.


Definition GetShareManagerInstanceLabel (name : string) : gmap string string :=
  let labels := GetBaseLabelsForSystemManagedComponent in
  <[GetLonghornLabelKey LonghornLabelShareManager := name]> labels.

(** [job] is a pointer in the source and is dereferenced: it is not nil. *)
Definition GetCronJobLabels (volumeName : string) (job : RecurringJob) : gmap string string :=
  let labels := GetBaseLabelsForSystemManagedComponent in
  let labels := <[LonghornLabelVolume := volumeName]> labels in
  let labels := <[GetLonghornLabelKey LonghornLabelCronJobTask := Task job]> labels in
  labels.

Definition GetCronJobPodLabels (volumeName : string) (job : RecurringJob) : gmap string string :=
  let labels : gmap string string := ∅ in
  let labels := <[LonghornLabelVolume := volumeName]> labels in
  let labels := <[GetLonghornLabelKey LonghornLabelCronJobTask := Task job]> labels in
  labels.

Definition GetBackingImageLabels : gmap string string :=
  <[GetLonghornLabelComponentKey := LonghornLabelBackingImage]> GetBaseLabelsForSystemManagedComponent.

Definition GetBackingImageManagerLabels (nodeID diskUUID : string) : gmap string string :=
  let labels := GetBaseLabelsForSystemManagedComponent in
  let labels := <[GetLonghornLabelComponentKey := LonghornLabelBackingImageManager]> labels in
  let labels := if decide (diskUUID ≠ "")
                then <[GetLonghornLabelKey LonghornLabelDiskUUID := diskUUID]> labels else labels in
  let labels := if decide (nodeID ≠ "")
                then <[GetLonghornLabelKey LonghornLabelNode := nodeID]> labels else labels in
  labels.

Definition GetBackingImageDataSourceLabels (name nodeID diskUUID : string) : gmap string string :=
  let labels := GetBaseLabelsForSystemManagedComponent in
  let labels := <[GetLonghornLabelComponentKey := LonghornLabelBackingImageDataSource]> labels in
  let labels := if decide (name ≠ "")
                then <[GetLonghornLabelKey LonghornLabelBackingImageDataSource := name]> labels else labels in
  let labels := if decide (diskUUID ≠ "")
                then <[GetLonghornLabelKey LonghornLabelDiskUUID := diskUUID]> labels else labels in
  let labels := if decide (nodeID ≠ "")
                then <[GetLonghornLabelKey LonghornLabelNode := nodeID]> labels else labels in
  labels.

Definition GetVolumeLabels (volumeName : string) : gmap string string :=
  {[ LonghornLabelVolume := volumeName ]}.

Section ImageLabels.
Context `{Collaborators}.

(** The image label is a checksum name, whose slice may panic: the result
    is [None] then. *)
Definition GetInstanceManagerLabels (node instanceManagerImage : string)
    (managerType : InstanceManagerType) : option (gmap string string) :=
  let labels := GetBaseLabelsForSystemManagedComponent in
  let labels := <[GetLonghornLabelComponentKey := LonghornLabelInstanceManager]> labels in
  let labels := <[GetLonghornLabelKey LonghornLabelInstanceManagerType := managerType]> labels in
  let labels := if decide (node ≠ "")
                then <[GetLonghornLabelKey LonghornLabelNode := node]> labels else labels in
  if decide (instanceManagerImage ≠ "") then
    checksum ← GetInstanceManagerImageChecksumName (GetImageCanonicalName instanceManagerImage);
    Some (<[GetLonghornLabelKey LonghornLabelInstanceManagerImage := checksum]> labels)
  else Some labels.

Definition GetShareManagerLabels (name image : string) : option (gmap string string) :=
  let labels := GetBaseLabelsForSystemManagedComponent in
  let labels := <[GetLonghornLabelComponentKey := LonghornLabelShareManager]> labels in
  let labels := if decide (name ≠ "")
                then <[GetLonghornLabelKey LonghornLabelShareManager := name]> labels else labels in
  if decide (image ≠ "") then
    checksum ← GetShareManagerImageChecksumName (GetImageCanonicalName image);
    Some (<[GetLonghornLabelKey LonghornLabelShareManagerImage := checksum]> labels)
  else Some labels.

End ImageLabels.

(** ** Region and zone *)

Definition GetRegionAndZone (labels : gmap string string) (isUsingTopologyLabels : bool)
    : string * string :=
  let region := "" in
  let zone := "" in
  if isUsingTopologyLabels then
    let region := match labels !! KubernetesTopologyRegionLabelKey with Some v => v | None => region end in
    let zone := match labels !! KubernetesTopologyZoneLabelKey with Some v => v | None => zone end in
    (region, zone)
  else
    let region := match labels !! KubernetesFailureDomainRegionLabelKey with Some v => v | None => region end in
    let zone := match labels !! KubernetesFailureDomainZoneLabelKey with Some v => v | None => zone end in
    (region, zone).

(** The pair of keys the flag selects. *)
Definition regionKey (isUsingTopologyLabels : bool) : string :=
  if isUsingTopologyLabels then KubernetesTopologyRegionLabelKey
  else KubernetesFailureDomainRegionLabelKey.

Definition zoneKey (isUsingTopologyLabels : bool) : string :=
  if isUsingTopologyLabels then KubernetesTopologyZoneLabelKey
  else KubernetesFailureDomainZoneLabelKey.

(** ** Scalar validators *)

Definition ValidateReplicaCount (count : Z) : option errorString :=
  if ((count <? 1) || (count >? 20))%Z
  then Some "replica count value must between 1 to 20"
  else None.

Inductive CPUReservationError :=
| EngineManagerCPUNotInt (value : string)
| ReplicaManagerCPUNotInt (value : string)
| CPUSumOutOfRange (engineManagerCPU replicaManagerCPU : Z).

Definition ValidateCPUReservationValues (engineManagerCPUStr replicaManagerCPUStr : string)
    : option CPUReservationError :=
  match GoInt.Atoi engineManagerCPUStr with
  | None => Some (EngineManagerCPUNotInt engineManagerCPUStr)
  | Some engineManagerCPU =>
      match GoInt.Atoi replicaManagerCPUStr with
      | None => Some (ReplicaManagerCPUNotInt replicaManagerCPUStr)
      | Some replicaManagerCPU =>
          if ((GoInt.add engineManagerCPU replicaManagerCPU <? 0)
              || (GoInt.add engineManagerCPU replicaManagerCPU >? 40))%Z
          then Some (CPUSumOutOfRange engineManagerCPU replicaManagerCPU)
          else None
      end
  end.

(** ** Disk annotations *)

Inductive DiskError :=
| ErrUnmarshal (cause : errorString)               (* "failed to unmarshal the default disks annotation" *)
| ErrInvalidDisk (disk : DiskSpecWithName)         (* "invalid disk %+v" *)
| ErrPropagated (err : errorString)                (* an error of package util, returned as it is *)
| ErrDuplicatePath (path : string)                 (* "duplicate disk path %v" *)
| ErrSameFilesystem (path existing fsid : string)  (* "the disk %v is the samefile system with %v, fsid %v" *)
| ErrStorageReserved (path : string)               (* "the storageReserved setting of disk %v is not valid, ..." *)
| ErrDuplicateName (name : string).                (* "the disk name %v has duplicated" *)

(** The two maps of the loop in [CreateDisksFromAnnotation]. *)
Record loopState := {
  validDisks : gmap string DiskSpec;
  existFsid : gmap string string;
}.

Section Disks.
Context {World : Type} `{Collaborators} `{FileSystem World}.

(** A computation that reads and changes the filesystem and either fails
    with an error or returns a value. *)
Definition Validation (A : Type) : Type := World → (DiskError + A) * World.

Definition ret {A} (a : A) : Validation A := λ w, (inr a, w).

Definition fail {A} (e : DiskError) : Validation A := λ w, (inl e, w).

Definition bind {A B} (m : Validation A) (k : A → Validation B) : Validation B :=
  λ w, match m w with
       | (inl e, w') => (inl e, w')
       | (inr a, w') => k a w'
       end.

Notation "'do' x <- m ; k" := (bind m (λ x, k))
  (at level 10, x name, m at level 100, k at level 200).

(** [diskInfo, err := util.GetDiskInfo(path); if err != nil { return nil, err }] *)
Definition getDiskInfo (path : string) : Validation DiskInfo :=
  λ w, match GetDiskInfo path w with
       | (inl err, w') => (inl (ErrPropagated err), w')
       | (inr diskInfo, w') => (inr diskInfo, w')
       end.

(** [tags, err := util.ValidateTags(tags); if err != nil { return nil, err }] *)
Definition validateTags (tags : list string) : Validation (list string) :=
  match ValidateTags tags with
  | inl err => fail (ErrPropagated err)
  | inr tags' => ret tags'
  end.

(** [for _, vDisk := range validDisks { if vDisk.Path == path { ... } }] *)
Definition pathInUse (validDisks : gmap string DiskSpec) (path : string) : bool :=
  existsb (λ kv, bool_decide (Path (snd kv) = path)) (map_to_list validDisks).

(** One iteration of the loop over the decoded entries. *)
Definition checkDisk (disk : DiskSpecWithName) (st : loopState) : Validation loopState :=
  if decide (Path (embedded disk) = "") then fail (ErrInvalidDisk disk) else
  do diskInfo <- getDiskInfo (Path (embedded disk));
  if pathInUse (validDisks st) (Path (embedded disk))
  then fail (ErrDuplicatePath (Path (embedded disk))) else
  let name := if decide (Name disk = "") then DefaultDiskPrefix +:+ Fsid diskInfo else Name disk in
  match existFsid st !! Fsid diskInfo with
  | Some existing => fail (ErrSameFilesystem (Path (embedded disk)) existing (Fsid diskInfo))
  | None =>
      let existFsid' := <[Fsid diskInfo := Path (embedded disk)]> (existFsid st) in
      if ((StorageReserved (embedded disk) <? 0)
          || (StorageReserved (embedded disk) >? StorageMaximum diskInfo))%Z
      then fail (ErrStorageReserved (Path (embedded disk))) else
      do tags <- validateTags (Tags (embedded disk));
      let spec := {| Path := Path (embedded disk);
                     AllowScheduling := AllowScheduling (embedded disk);
                     EvictionRequested := EvictionRequested (embedded disk);
                     StorageReserved := StorageReserved (embedded disk);
                     Tags := tags |} in
      match validDisks st !! name with
      | Some _ => fail (ErrDuplicateName name)
      | None => ret {| validDisks := <[name := spec]> (validDisks st); existFsid := existFsid' |}
      end
  end.

Fixpoint checkDisks (disks : list DiskSpecWithName) (st : loopState) : Validation loopState :=
  match disks with
  | [] => ret st
  | disk :: rest => do st' <- checkDisk disk st; checkDisks rest st'
  end.

(** The Go result pair [(map[string]DiskSpec, error)]: [None] is [nil]. *)
Definition CreateDisksFromAnnotation (annotation : string)
    : World → (option (gmap string DiskSpec) * option DiskError) * World :=
  λ w, match json_Unmarshal annotation with
       | inl err => ((None, Some (ErrUnmarshal err)), w)
       | inr disks =>
           match checkDisks disks {| validDisks := ∅; existFsid := ∅ |} w with
           | (inl err, w') => ((None, Some err), w')
           | (inr st, w') => ((Some (validDisks st), None), w')
           end
       end.

Definition CreateDefaultDisk (dataPath : string)
    : World → (option (gmap string DiskSpec) * option errorString) * World :=
  λ w, match CreateDiskPathReplicaSubdirectory dataPath w with
       | (Some err, w1) => ((None, Some err), w1)
       | (None, w1) =>
           match GetDiskInfo dataPath w1 with
           | (inl err, w2) => ((None, Some err), w2)
           | (inr diskInfo, w2) =>
               ((Some {[ DefaultDiskPrefix +:+ Fsid diskInfo :=
                           {| Path := DiskInfo_Path diskInfo;
                              AllowScheduling := true;
                              EvictionRequested := false;
                              StorageReserved :=
                                GoInt.quo64 (GoInt.mul64 (StorageMaximum diskInfo) 30) 100;
                              Tags := [] |} ]}, None), w2)
           end
       end.

End Disks.

Arguments Validation World : clear implicits.

(** ** Generated names *)

Definition engineSuffix := "-e".
Definition replicaSuffix := "-r".
Definition recurringSuffix := "-c".
Definition MaximumJobNameSize : nat := 8.
Definition shareManagerPrefix := "share-manager-".
Definition instanceManagerPrefix := "instance-manager-".
Definition engineManagerPrefix := instanceManagerPrefix +:+ "e-".
Definition replicaManagerPrefix := instanceManagerPrefix +:+ "r-".

(** [util.RandomID] draws from a source of randomness, a state the call
    reads and changes. *)
Class RandomSource (World : Type) := RandomID : World → string * World.

(** The two instance-manager types are constants of another file of the
    package. *)
Class InstanceManagerTypes := {
  InstanceManagerTypeEngine : InstanceManagerType;
  InstanceManagerTypeReplica : InstanceManagerType;
}.

Definition GetCronJobNameForVolumeAndJob (vName job : string) : string :=
  vName +:+ "-" +:+ job +:+ recurringSuffix.

Section GeneratedNames.
Context {World : Type} `{RandomSource World} `{InstanceManagerTypes}.

Definition GenerateEngineNameForVolume (vName : string) : World → string * World :=
  λ w, let '(id, w') := RandomID w in (vName +:+ engineSuffix +:+ "-" +:+ id, w').

Definition GenerateReplicaNameForVolume (vName : string) : World → string * World :=
  λ w, let '(id, w') := RandomID w in (vName +:+ replicaSuffix +:+ "-" +:+ id, w').

(** The Go result pair [(string, error)]. *)
Definition GetInstanceManagerName (imType : InstanceManagerType)
    : World → (string * option errorString) * World :=
  λ w, if decide (imType = InstanceManagerTypeEngine) then
         let '(id, w') := RandomID w in ((engineManagerPrefix +:+ id, None), w')
       else if decide (imType = InstanceManagerTypeReplica) then
         let '(id, w') := RandomID w in ((replicaManagerPrefix +:+ id, None), w')
       else (("", Some ("cannot generate name for unknown instance manager type " +:+ imType)), w).

Definition GetInstanceManagerPrefix (imType : InstanceManagerType) : string :=
  if decide (imType = InstanceManagerTypeEngine) then engineManagerPrefix
  else if decide (imType = InstanceManagerTypeReplica) then replicaManagerPrefix
  else "".

End GeneratedNames.

(** [fmt.Sprintf("backing-image-manager-%s-%s", util.GetStringChecksum(image)[:4], diskUUID[:4])];
    [None] is the run-time panic of either slice. *)
Definition GetBackingImageManagerName `{Collaborators} (image diskUUID : string) : option string :=
  checksum ← slice_to 4 (GetStringChecksum image);
  uuid ← slice_to 4 diskUUID;
  Some ("backing-image-manager-" +:+ checksum +:+ "-" +:+ uuid).

(** ** Component labels and the text of a label set *)


Definition GetInstanceManagerComponentLabel : gmap string string :=
  {[ GetLonghornLabelComponentKey := LonghornLabelInstanceManager ]}.

Definition GetShareManagerComponentLabel : gmap string string :=
  {[ GetLonghornLabelComponentKey := LonghornLabelShareManager ]}.

(** The body of [LabelsToString] once the runtime has chosen the order in
    which [range] visits the map. *)
Definition LabelsToStringIn (order : list (string * string)) : string :=
  let res := foldl (λ res kv, res +:+ (fst kv +:+ "=" +:+ snd kv +:+ ",")) "" order in
  TrimSuffix res ",".

(** [LabelsToString]: Go leaves the order of [range] over a map open, so
    every order of the entries is a possible run. *)
Definition LabelsToString (labels : gmap string string) (res : string) : Prop :=
  ∃ order, order ≡ₚ map_to_list labels ∧ res = LabelsToStringIn order.

(** [strings.Join(elems, sep)], to say what [LabelsToString] builds. *)
Fixpoint joinWith (sep : string) (elems : list string) : string :=
  match elems with
  | [] => ""
  | [e] => e
  | e :: rest => e +:+ sep +:+ joinWith sep rest
  end.

Definition labelText (kv : string * string) : string := fst kv +:+ "=" +:+ snd kv.

(** The filesystem after the paths have been looked up one after the
    other. *)
Definition lookups {World : Type} `{FileSystem World} (paths : list string) (w : World) : World :=
  foldl (λ w path, snd (GetDiskInfo path w)) w paths.

(** ** What a disk annotation asks for *)

(** What the annotation asks for, entry by entry, on a filesystem whose
    metadata does not change during the call: [info] is what every
    lookup of a path answers. *)
Section DiskSpecification.
Context `{Collaborators}.
Variable info : string → errorString + DiskInfo.

Definition pathOf (d : DiskSpecWithName) : string := Path (embedded d).

Definition fsidOf (d : DiskSpecWithName) : string :=
  match info (pathOf d) with
  | inr diskInfo => Fsid diskInfo
  | inl _ => ""
  end.

(** The given name, or the default one when the given name is empty. *)
Definition nameOf (d : DiskSpecWithName) : string :=
  if decide (Name d = "") then DefaultDiskPrefix +:+ fsidOf d else Name d.

(** The entry's [DiskSpec] with its tags normalised. *)
Definition specOf (d : DiskSpecWithName) : DiskSpec :=
  {| Path := Path (embedded d);
     AllowScheduling := AllowScheduling (embedded d);
     EvictionRequested := EvictionRequested (embedded d);
     StorageReserved := StorageReserved (embedded d);
     Tags := match ValidateTags (Tags (embedded d)) with
             | inr tags => tags
             | inl _ => Tags (embedded d)
             end |}.

(** An entry that is acceptable on its own. *)
Definition entryOK (d : DiskSpecWithName) : Prop :=
  pathOf d ≠ ""
  ∧ (∃ diskInfo, info (pathOf d) = inr diskInfo
       ∧ (0 ≤ StorageReserved (embedded d) ≤ StorageMaximum diskInfo)%Z)
  ∧ (∃ tags, ValidateTags (Tags (embedded d)) = inr tags).

(** A list of entries that is acceptable as a whole. *)
Definition validDiskList (disks : list DiskSpecWithName) : Prop :=
  Forall entryOK disks
  ∧ NoDup (pathOf <$> disks)
  ∧ NoDup (fsidOf <$> disks)
  ∧ NoDup (nameOf <$> disks).

(** The state of the loop once the entries [accepted] have gone through it. *)
Definition loopInvariant (accepted : list DiskSpecWithName) (st : loopState) : Prop :=
  validDiskList accepted
  ∧ (∀ name spec, validDisks st !! name = Some spec
       ↔ ∃ d, d ∈ accepted ∧ nameOf d = name ∧ specOf d = spec)
  ∧ (∀ fsid, is_Some (existFsid st !! fsid) ↔ fsid ∈ fsidOf <$> accepted)
  ∧ size (validDisks st) = length accepted.

(** The violations that show in the decoded entries alone. *)
Definition syntacticViolation (disks : list DiskSpecWithName) : Prop :=
  (∃ d, d ∈ disks ∧ pathOf d = "")
  ∨ (∃ i j di dj, i ≠ j ∧ disks !! i = Some di ∧ disks !! j = Some dj
       ∧ pathOf di = pathOf dj).

(** The violations an annotation may contain. *)
Definition violation (disks : list DiskSpecWithName) : Prop :=
  syntacticViolation disks
  ∨ (∃ i j di dj infoi infoj, i ≠ j ∧ disks !! i = Some di ∧ disks !! j = Some dj
       ∧ pathOf di ≠ pathOf dj
       ∧ info (pathOf di) = inr infoi ∧ info (pathOf dj) = inr infoj
       ∧ Fsid infoi = Fsid infoj)
  ∨ (∃ d, d ∈ disks
       ∧ ((StorageReserved (embedded d) < 0)%Z
          ∨ ∃ diskInfo, info (pathOf d) = inr diskInfo
              ∧ (StorageMaximum diskInfo < StorageReserved (embedded d))%Z))
  ∨ (∃ i j di dj, i ≠ j ∧ disks !! i = Some di ∧ disks !! j = Some dj
       ∧ nameOf di = nameOf dj).

End DiskSpecification.

(** ** Concrete collaborators

    A node with two data disks, [/mnt/a] and [/mnt/b], on two filesystems,
    and one bind mount of the first, [/mnt/a2].  The filesystem state is
    the log of the paths looked up so far. *)

Definition dquote : string := String "034"%char EmptyString.

(** [[{"path":"/mnt/a"},{"path":"/mnt/b","storageReserved":100,"tags":["ssd"]}]] *)
Definition exampleAnnotation : string :=
  "[{" +:+ dquote +:+ "path" +:+ dquote +:+ ":" +:+ dquote +:+ "/mnt/a" +:+ dquote +:+ "},{"
  +:+ dquote +:+ "path" +:+ dquote +:+ ":" +:+ dquote +:+ "/mnt/b" +:+ dquote +:+ ","
  +:+ dquote +:+ "storageReserved" +:+ dquote +:+ ":100,"
  +:+ dquote +:+ "tags" +:+ dquote +:+ ":[" +:+ dquote +:+ "ssd" +:+ dquote +:+ "]}]".

Definition diskEntry (path name : string) (reserved : Z) (tags : list string) : DiskSpecWithName :=
  {| embedded := {| Path := path; AllowScheduling := false; EvictionRequested := false;
                    StorageReserved := reserved; Tags := tags |};
     Name := name |}.

Definition exampleDisks : list DiskSpecWithName :=
  [diskEntry "/mnt/a" "" 0 []; diskEntry "/mnt/b" "" 100 ["ssd"]].

(** [[{"path":"/mnt/a"},{"path":"/mnt/a"}]] *)
Definition repeatedAnnotation : string :=
  "[{" +:+ dquote +:+ "path" +:+ dquote +:+ ":" +:+ dquote +:+ "/mnt/a" +:+ dquote +:+ "},{"
  +:+ dquote +:+ "path" +:+ dquote +:+ ":" +:+ dquote +:+ "/mnt/a" +:+ dquote +:+ "}]".

Definition repeatedDisks : list DiskSpecWithName :=
  [diskEntry "/mnt/a" "" 0 []; diskEntry "/mnt/a" "" 0 []].

(** [[{"path":"/mnt/a"},{"path":"/mnt/a2"}]] *)
Definition bindMountAnnotation : string :=
  "[{" +:+ dquote +:+ "path" +:+ dquote +:+ ":" +:+ dquote +:+ "/mnt/a" +:+ dquote +:+ "},{"
  +:+ dquote +:+ "path" +:+ dquote +:+ ":" +:+ dquote +:+ "/mnt/a2" +:+ dquote +:+ "}]".

Definition bindMountDisks : list DiskSpecWithName :=
  [diskEntry "/mnt/a" "" 0 []; diskEntry "/mnt/a2" "" 0 []].

(** A decoder that knows the three annotations above, a digest that is the
    same for every seed, and a tag check that accepts every tag. *)
Definition exampleCollaborators : Collaborators := {|
  GetStringChecksum := λ _, "cf83e1357eefb8bdf1542850d66d8007";
  ValidateTags := λ tags, inr tags;
  TrimSpace := λ s, s;
  json_Unmarshal := λ s,
    if decide (s = exampleAnnotation) then inr exampleDisks
    else if decide (s = repeatedAnnotation) then inr repeatedDisks
    else if decide (s = bindMountAnnotation) then inr bindMountDisks
    else inl "invalid character";
|}.

Definition exampleDiskInfo (path : string) : errorString + DiskInfo :=
  if decide (path = "/mnt/a") then
    inr {| Fsid := "F1"; DiskInfo_Path := "/mnt/a"; StorageMaximum := 1000; StorageAvailable := 800 |}
  else if decide (path = "/mnt/a2") then
    inr {| Fsid := "F1"; DiskInfo_Path := "/mnt/a2"; StorageMaximum := 1000; StorageAvailable := 800 |}
  else if decide (path = "/mnt/b") then
    inr {| Fsid := "F2"; DiskInfo_Path := "/mnt/b"; StorageMaximum := 500; StorageAvailable := 500 |}
  else inl "no such file or directory".

Definition exampleFS : FileSystem (list string) := {|
  GetDiskInfo := λ path log, (exampleDiskInfo path, (log ++ [path])%list);
  CreateDiskPathReplicaSubdirectory := λ path log, (None, log);
|}.

(** The same node when its disks go away after the first lookup. *)
Definition flakyFS : FileSystem (list string) := {|
  GetDiskInfo := λ path log,
    (match log with
     | [] => exampleDiskInfo path
     | _ :: _ => inl "input/output error"
     end, (log ++ [path])%list);
  CreateDiskPathReplicaSubdirectory := λ path log, (None, log);
|}.

(** A network filesystem that reports a capacity of eight exbibytes less
    one mebibyte. *)
Definition hugeFS : FileSystem unit := {|
  GetDiskInfo := λ path w,
    (inr {| Fsid := "F9"; DiskInfo_Path := path;
            StorageMaximum := 9223372036853727232;
            StorageAvailable := 9223372036853727232 |}, w);
  CreateDiskPathReplicaSubdirectory := λ path w, (None, w);
|}.

(** [[{"path":"/mnt/b","storageReserved":100,"tags":["ssd"]},{"path":"/mnt/a"}]],
    the entries of [exampleAnnotation] in the other order, and a decoder
    that knows both. *)
Definition swappedAnnotation : string :=
  "[{" +:+ dquote +:+ "path" +:+ dquote +:+ ":" +:+ dquote +:+ "/mnt/b" +:+ dquote +:+ ","
  +:+ dquote +:+ "storageReserved" +:+ dquote +:+ ":100,"
  +:+ dquote +:+ "tags" +:+ dquote +:+ ":[" +:+ dquote +:+ "ssd" +:+ dquote +:+ "]},{"
  +:+ dquote +:+ "path" +:+ dquote +:+ ":" +:+ dquote +:+ "/mnt/a" +:+ dquote +:+ "}]".

Definition swappedDisks : list DiskSpecWithName :=
  [diskEntry "/mnt/b" "" 100 ["ssd"]; diskEntry "/mnt/a" "" 0 []].

Definition orderCollaborators : Collaborators := {|
  GetStringChecksum := @GetStringChecksum exampleCollaborators;
  ValidateTags := @ValidateTags exampleCollaborators;
  TrimSpace := @TrimSpace exampleCollaborators;
  json_Unmarshal := λ s,
    if decide (s = swappedAnnotation) then inr swappedDisks
    else @json_Unmarshal exampleCollaborators s;
|}.

(** A source of identifiers that counts its draws, and the two
    instance-manager types. *)
Definition exampleRandom : RandomSource nat := λ n, ("a1b2c3d4", S n).

Definition exampleTypes : InstanceManagerTypes := {|
  InstanceManagerTypeEngine := "engine";
  InstanceManagerTypeReplica := "replica";
|}.

(** * Properties *)

(** ** Strings *)

Lemma HasPrefix_app (p s : string) : HasPrefix (p +:+ s) p = true.
Proof.
  induction p as [|c p IH]; simpl; [done|].
  by rewrite Ascii.eqb_refl.
Qed.

Lemma drop_bytes_app (p s : string) : drop_bytes (String.length p) (p +:+ s) = s.
Proof. induction p as [|c p IH]; simpl; done. Qed.

Lemma TrimPrefix_app (p s : string) : TrimPrefix (p +:+ s) p = s.
Proof. unfold TrimPrefix. by rewrite HasPrefix_app, drop_bytes_app. Qed.

Lemma HasPrefix_spec (s p : string) :
  HasPrefix s p = true ↔ ∃ rest, s = p +:+ rest.
Proof.
  revert s. induction p as [|c p IH]; intros s; simpl.
  - split; [intros _; by exists s | done].
  - destruct s as [|a s].
    + split; [done | intros [rest Hrest]; discriminate].
    + destruct (Ascii.eqb_spec a c) as [->|Hne].
      * rewrite IH. split; intros [rest Hrest]; exists rest; simpl in *; congruence.
      * split; [done | intros [rest Hrest]; simpl in Hrest; congruence].
Qed.

Lemma Contains_spec (s sub : string) :
  Contains s sub = true ↔ ∃ pre post, s = pre +:+ sub +:+ post.
Proof.
  induction s as [|a s IH].
  - simpl. rewrite orb_false_r, HasPrefix_spec. split.
    + intros [rest Hrest]. by exists "", rest.
    + intros [pre [post Hs]]. destruct pre; simpl in Hs; [by exists post | discriminate].
  - cbn [Contains]. rewrite orb_true_iff, IH, HasPrefix_spec. split.
    + intros [[rest Hrest] | [pre [post Hs]]].
      * by exists "", rest.
      * exists (String a pre), post. simpl. by rewrite Hs.
    + intros [pre [post Hs]]. destruct pre as [|b pre]; simpl in Hs.
      * left. by exists post.
      * right. exists pre, post. congruence.
Qed.

(** ** Name transforms *)

(** C4: stripping the pod-name prefix from a pod name built from a logical
    name gives the logical name back, for every string, and so does
    stripping the daemon-set prefix from a daemon-set name built from an
    engine-image name. *)
Theorem name_transforms_round_trip (L : string) :
  GetShareManagerNameFromShareManagerPodName (GetShareManagerPodNameFromShareManagerName L) = L
  ∧ GetEngineImageNameFromDaemonSetName (GetDaemonSetNameFromEngineImageName L) = L.
Proof.
  split.
  - unfold GetShareManagerNameFromShareManagerPodName, GetShareManagerPodNameFromShareManagerName.
    change (LonghornLabelShareManager +:+ "-" +:+ L) with ((LonghornLabelShareManager +:+ "-") +:+ L).
    apply TrimPrefix_app.
  - apply TrimPrefix_app.
Qed.

(** The other direction does not hold: a pod name that lacks the prefix
    is left as it is, and building a pod name from it adds the prefix. *)
Example round_trip_from_pod_name_fails :
  GetShareManagerPodNameFromShareManagerName (GetShareManagerNameFromShareManagerPodName "pvc-1")
  ≠ "pvc-1".
Proof. vm_compute. discriminate. Qed.

(** ** Error classification *)

Lemma ErrorIsNotFound_spec {E} `{GoError E} (err : E) :
  ErrorIsNotFound err = true ↔ ∃ pre post, Error err = pre +:+ "cannot find" +:+ post.
Proof. apply Contains_spec. Qed.

Lemma ErrorAlreadyExists_spec {E} `{GoError E} (err : E) :
  ErrorAlreadyExists err = true ↔ ∃ pre post, Error err = pre +:+ "already exists" +:+ post.
Proof. apply Contains_spec. Qed.

(** C10: the error a [NotFoundError] renders is classified as not-found
    whatever its name, because its text starts with "cannot find"; and
    each classifier answers true exactly when the text of the error has
    its phrase as a substring, looking at nothing else. *)
Theorem NotFoundError_is_not_found (n : string) :
  ErrorIsNotFound {| NotFoundError.Name := n |} = true
  ∧ (∃ post, Error {| NotFoundError.Name := n |} = "cannot find" +:+ post)
  ∧ (∀ (E : Type) (G : GoError E) (err : E),
        (ErrorIsNotFound err = true
         ↔ ∃ pre post, Error err = pre +:+ "cannot find" +:+ post)
        ∧ (ErrorAlreadyExists err = true
           ↔ ∃ pre post, Error err = pre +:+ "already exists" +:+ post)).
Proof.
  split; [|split].
  - apply ErrorIsNotFound_spec. exists "", (" " +:+ n). reflexivity.
  - exists (" " +:+ n). reflexivity.
  - intros E G err. split; [apply ErrorIsNotFound_spec | apply ErrorAlreadyExists_spec].
Qed.

Lemma NotFoundError_is_not_found_witness :
  ErrorIsNotFound {| NotFoundError.Name := "pvc-1" |} = true.
Proof. exact (proj1 (NotFoundError_is_not_found "pvc-1")). Defined.

(** ** Region and zone *)


Lemma GetRegionAndZone_selected (labels : gmap string string) (flag : bool) :
  GetRegionAndZone labels flag
  = (default "" (labels !! regionKey flag), default "" (labels !! zoneKey flag)).
Proof.
  unfold GetRegionAndZone, regionKey, zoneKey.
  destruct flag; cbn zeta;
    repeat match goal with |- context [?m !! ?k] => destruct (m !! k) end; reflexivity.
Qed.

(** C9: the result is read from the pair of keys the flag selects and
    from nothing else: two label maps that agree on that pair give the
    same region and zone, whatever they hold under the other pair, and a
    key of the pair that is absent gives the empty string. *)
Theorem GetRegionAndZone_reads_selected_pair (l1 l2 : gmap string string) (flag : bool) :
  l1 !! regionKey flag = l2 !! regionKey flag →
  l1 !! zoneKey flag = l2 !! zoneKey flag →
  GetRegionAndZone l1 flag = GetRegionAndZone l2 flag
  ∧ (l1 !! regionKey flag = None → fst (GetRegionAndZone l1 flag) = "")
  ∧ (l1 !! zoneKey flag = None → snd (GetRegionAndZone l1 flag) = "")
  ∧ (∀ v, l1 !! regionKey flag = Some v → fst (GetRegionAndZone l1 flag) = v)
  ∧ (∀ v, l1 !! zoneKey flag = Some v → snd (GetRegionAndZone l1 flag) = v).
Proof.
  intros Hregion Hzone. rewrite !GetRegionAndZone_selected, Hregion, Hzone.
  split; [done|]. cbn [fst snd].
  split; [|split; [|split]]; [intros -> | intros -> | intros v -> | intros v ->]; reflexivity.
Qed.

Lemma GetRegionAndZone_reads_selected_pair_witness :
  GetRegionAndZone {[ KubernetesTopologyRegionLabelKey := "eu";
                      KubernetesFailureDomainRegionLabelKey := "old";
                      KubernetesFailureDomainZoneLabelKey := "old-a" ]} true
  = GetRegionAndZone {[ KubernetesTopologyRegionLabelKey := "eu" ]} true.
Proof.
  refine (proj1 (GetRegionAndZone_reads_selected_pair _ _ true _ _)); vm_compute; reflexivity.
Defined.

(** ** Scalar validators *)

Lemma ValidateReplicaCount_nil_iff (count : Z) :
  ValidateReplicaCount count = None ↔ (1 ≤ count ≤ 20)%Z.
Proof.
  unfold ValidateReplicaCount.
  destruct (Z.ltb_spec count 1), (Z.gtb_spec count 20); simpl; split; intros; try done; lia.
Qed.

Example ValidateReplicaCount_bounds :
  ValidateReplicaCount 0 ≠ None ∧ ValidateReplicaCount 21 ≠ None
  ∧ ValidateReplicaCount 1 = None ∧ ValidateReplicaCount 20 = None.
Proof. repeat split; done. Qed.

Example ValidateCPUReservationValues_20_20 :
  ValidateCPUReservationValues "20" "20" = None.
Proof. reflexivity. Qed.

Example ValidateCPUReservationValues_30_20 :
  ValidateCPUReservationValues "30" "20" = Some (CPUSumOutOfRange 30 20).
Proof. reflexivity. Qed.

Lemma wrap_in_range (z : Z) :
  (- 2 ^ 63 ≤ z < 2 ^ 63)%Z → GoInt.wrap 64 z = z.
Proof.
  intros Hz. unfold GoInt.wrap. change (64 - 1)%Z with 63%Z.
  rewrite Z.mod_small; lia.
Qed.

Lemma wrap_below (z : Z) :
  (- 2 ^ 64 ≤ z < - 2 ^ 63)%Z → GoInt.wrap 64 z = (z + 2 ^ 64)%Z.
Proof.
  intros Hz. unfold GoInt.wrap. change (64 - 1)%Z with 63%Z.
  rewrite <- (Z.mod_unique (z + 2 ^ 63) (2 ^ 64) (-1) (z + 2 ^ 63 + 2 ^ 64)); lia.
Qed.

Lemma wrap_above (z : Z) :
  (2 ^ 63 ≤ z < 2 ^ 64)%Z → GoInt.wrap 64 z = (z - 2 ^ 64)%Z.
Proof.
  intros Hz. unfold GoInt.wrap. change (64 - 1)%Z with 63%Z.
  rewrite <- (Z.mod_unique (z + 2 ^ 63) (2 ^ 64) 1 (z + 2 ^ 63 - 2 ^ 64)); lia.
Qed.

Lemma Atoi_range (s : string) (v : Z) :
  GoInt.Atoi s = Some v → (- 2 ^ 63 ≤ v < 2 ^ 63)%Z.
Proof.
  unfold GoInt.Atoi. destruct s as [|c rest]; [done|].
  destruct (if Ascii.eqb c "-" then (true, rest)
            else if Ascii.eqb c "+" then (false, rest) else (false, String c rest))
    as [neg ds].
  destruct ds as [|d ds]; [done|].
  destruct (GoInt.parse_digits 0 (String d ds)) as [n|]; [|done].
  cbn zeta. unfold GoInt.minInt, GoInt.maxInt, GoInt.intSize.
  change (64 - 1)%Z with 63%Z.
  destruct (Z.leb_spec (- 2 ^ 63) (if neg then (- n)%Z else n)); [|done].
  destruct (Z.leb_spec (if neg then (- n)%Z else n) (2 ^ 63 - 1)); [|done].
  simpl. intros [= <-]. lia.
Qed.

(** What the code accepts: both strings parse, and the sum as the
    machine computes it lies in [[0, 40]]. *)
Lemma ValidateCPUReservationValues_nil_iff (e r : string) :
  ValidateCPUReservationValues e r = None
  ↔ ∃ a b, GoInt.Atoi e = Some a ∧ GoInt.Atoi r = Some b ∧ (0 ≤ GoInt.add a b ≤ 40)%Z.
Proof.
  unfold ValidateCPUReservationValues.
  destruct (GoInt.Atoi e) as [a|]; [|split; [done | intros (? & ? & ? & _); done]].
  destruct (GoInt.Atoi r) as [b|]; [|split; [done | intros (? & ? & _ & ? & _); done]].
  destruct (Z.ltb_spec (GoInt.add a b) 0), (Z.gtb_spec (GoInt.add a b) 40); simpl;
    (split; [try done; intros _; exists a, b; repeat split; lia
            | intros (a' & b' & [= <-] & [= <-] & Hsum); try done; lia]).
Qed.

(** In terms of the exact sum: the sum lies in [[0, 40]], or it is so far
    below the range of [int] that it wraps into [[0, 40]]. *)
Lemma ValidateCPUReservationValues_nil_exact (e r : string) :
  ValidateCPUReservationValues e r = None
  ↔ ∃ a b, GoInt.Atoi e = Some a ∧ GoInt.Atoi r = Some b
           ∧ ((0 ≤ a + b ≤ 40)%Z ∨ (a + b ≤ 40 - 2 ^ 64)%Z).
Proof.
  rewrite ValidateCPUReservationValues_nil_iff.
  split; intros (a & b & Ha & Hb & Hsum); exists a, b; (split; [done|split; [done|]]);
    pose proof (Atoi_range _ _ Ha); pose proof (Atoi_range _ _ Hb);
    unfold GoInt.add, GoInt.intSize in *.
  - destruct (Z_lt_dec (a + b) (- 2 ^ 63)); [rewrite wrap_below in Hsum by lia; lia|].
    destruct (Z_lt_dec (a + b) (2 ^ 63)); [rewrite wrap_in_range in Hsum by lia; lia|].
    rewrite wrap_above in Hsum by lia. lia.
  - destruct Hsum; [rewrite wrap_in_range by lia; lia | rewrite wrap_below by lia; lia].
Qed.

(** C7: the replica-count validator accepts exactly the counts from 1 to
    20, but the CPU validator accepts a pair whose sum is not within
    [[0, 40]]: both strings below parse, their sum is [- 2 ^ 64], and the
    64-bit addition wraps it to 0, which passes the range check. *)
Theorem ValidateCPUReservationValues_wraps :
  GoInt.Atoi "-9223372036854775808" = Some (- 9223372036854775808)%Z
  ∧ ValidateCPUReservationValues "-9223372036854775808" "-9223372036854775808" = None
  ∧ ¬ (0 ≤ (- 9223372036854775808) + (- 9223372036854775808) ≤ 40)%Z
  ∧ (∀ count, ValidateReplicaCount count = None ↔ (1 ≤ count ≤ 20)%Z).
Proof.
  split; [reflexivity|]. split; [reflexivity|]. split; [lia|].
  apply ValidateReplicaCount_nil_iff.
Qed.

(** ** The default disk *)

Section DefaultDisk.
Context {World : Type} `{Collaborators} `{FileSystem World}.

(** The one entry [CreateDefaultDisk] builds from a [DiskInfo]. *)
Lemma CreateDefaultDisk_ok (dataPath : string) (w w1 w2 : World) (diskInfo : DiskInfo) :
  CreateDiskPathReplicaSubdirectory dataPath w = (None, w1) →
  GetDiskInfo dataPath w1 = (inr diskInfo, w2) →
  CreateDefaultDisk dataPath w
  = ((Some {[ DefaultDiskPrefix +:+ Fsid diskInfo :=
                {| Path := DiskInfo_Path diskInfo;
                   AllowScheduling := true;
                   EvictionRequested := false;
                   StorageReserved := GoInt.quo64 (GoInt.mul64 (StorageMaximum diskInfo) 30) 100;
                   Tags := [] |} ]}, None), w2).
Proof. intros Hdir Hinfo. unfold CreateDefaultDisk. by rewrite Hdir, Hinfo. Qed.

Lemma default_reservation_exact (storageMaximum : Z) :
  (0 ≤ storageMaximum)%Z → (storageMaximum * 30 < 2 ^ 63)%Z →
  GoInt.quo64 (GoInt.mul64 storageMaximum 30) 100 = (storageMaximum * 30 / 100)%Z.
Proof.
  intros Hpos Hfit. unfold GoInt.quo64, GoInt.mul64.
  rewrite (wrap_in_range (storageMaximum * 30)) by lia.
  rewrite Z.quot_div_nonneg by lia.
  apply wrap_in_range.
  pose proof (Z.div_pos (storageMaximum * 30) 100 ltac:(lia) ltac:(lia)).
  pose proof (Z.div_le_upper_bound (storageMaximum * 30) 100 (2 ^ 63 - 1) ltac:(lia) ltac:(lia)).
  lia.
Qed.

(** On a disk whose capacity times thirty fits 64 bits the reservation is
    thirty percent of the capacity, rounded down. *)
Lemma CreateDefaultDisk_thirty_percent (dataPath : string) (w w1 w2 : World) (diskInfo : DiskInfo) :
  CreateDiskPathReplicaSubdirectory dataPath w = (None, w1) →
  GetDiskInfo dataPath w1 = (inr diskInfo, w2) →
  (0 ≤ StorageMaximum diskInfo)%Z → (StorageMaximum diskInfo * 30 < 2 ^ 63)%Z →
  CreateDefaultDisk dataPath w
  = ((Some {[ DefaultDiskPrefix +:+ Fsid diskInfo :=
                {| Path := DiskInfo_Path diskInfo;
                   AllowScheduling := true;
                   EvictionRequested := false;
                   StorageReserved := (StorageMaximum diskInfo * 30 / 100)%Z;
                   Tags := [] |} ]}, None), w2).
Proof.
  intros Hdir Hinfo Hpos Hfit.
  rewrite (CreateDefaultDisk_ok _ _ _ _ _ Hdir Hinfo).
  by rewrite default_reservation_exact.
Qed.

End DefaultDisk.

(** C8: on a filesystem of 9223372036853727232 bytes both collaborators
    succeed and [CreateDefaultDisk] returns one entry under the default
    name with the path of the [DiskInfo], scheduling allowed and no
    eviction requested, but its reservation is [-314572]: the 64-bit
    product of the capacity and thirty wraps.  Thirty percent of the
    capacity is 2767011611056118169. *)
Theorem CreateDefaultDisk_reservation_wraps :
  @CreateDefaultDisk unit hugeFS "/mnt/huge" tt
  = ((Some {[ "default-disk-F9" :=
                {| Path := "/mnt/huge";
                   AllowScheduling := true;
                   EvictionRequested := false;
                   StorageReserved := (-314572)%Z;
                   Tags := [] |} ]}, None), tt)
  ∧ (9223372036853727232 * 30 / 100 = 2767011611056118169)%Z
  ∧ (- 2 ^ 63 ≤ 9223372036853727232 < 2 ^ 63)%Z.
Proof. split; [vm_compute; reflexivity|]. split; [reflexivity | lia]. Qed.

(** ** Checksum-based identities *)


Lemma in_class_hex (c : ascii) : in_class hexClass c = isHexDigit c.
Proof.
  destruct c as [b0 b1 b2 b3 b4 b5 b6 b7].
  destruct b0, b1, b2, b3, b4, b5, b6, b7; reflexivity.
Qed.

Lemma iter_flat_map_nil {A} (f : A → list A) (n : nat) :
  Nat.iter n (flat_map f) [] = [].
Proof. induction n as [|n IH]; simpl; [done|]. by rewrite IH. Qed.

Lemma residuals_hex_run (n : nat) (s t : string) :
  In t (Nat.iter n (flat_map (residuals (Class hexClass))) [s])
  ↔ ∃ u, s = u +:+ t ∧ String.length u = n ∧ allHexDigits u = true.
Proof.
  revert s. induction n as [|n IH]; intros s.
  - simpl. split.
    + intros [->|[]]. by exists "".
    + intros (u & -> & Hlen & _). destruct u; [by left | discriminate].
  - rewrite Nat.iter_succ_r. cbn [flat_map residuals]. rewrite app_nil_r.
    destruct s as [|c s].
    + rewrite iter_flat_map_nil. split; [intros []|].
      intros (u & Hs & Hlen & _). destruct u; discriminate.
    + rewrite in_class_hex. destruct (isHexDigit c) eqn:Hc.
      * rewrite IH. split.
        -- intros (u & -> & Hlen & Hhex). exists (String c u). simpl.
           rewrite Hc, Hhex, Hlen. done.
        -- intros (u & Hs & Hlen & Hhex). destruct u as [|c' u]; [discriminate|].
           simpl in *. injection Hs as -> ->. injection Hlen as Hlen.
           apply andb_true_iff in Hhex as [_ Hhex]. by exists u.
      * rewrite iter_flat_map_nil. split; [intros []|].
        intros (u & Hs & Hlen & Hhex). destruct u as [|c' u]; [discriminate|].
        simpl in *. injection Hs as -> ->. by rewrite Hc in Hhex.
Qed.

Lemma app_empty_r (s : string) : s +:+ "" = s.
Proof. induction s as [|c s IH]; simpl; [done|]. by rewrite IH. Qed.

(** The recognizer accepts exactly [ei-] followed by eight hexadecimal
    digits. *)
Lemma ValidateEngineImageChecksumName_shape (name : string) :
  ValidateEngineImageChecksumName name = true
  ↔ ∃ digits, name = engineImagePrefix +:+ digits
              ∧ String.length digits = 8 ∧ allHexDigits digits = true.
Proof.
  unfold ValidateEngineImageChecksumName, MatchWhole, engineImageChecksumPattern.
  rewrite existsb_exists. cbn [residuals].
  destruct (HasPrefix name engineImagePrefix) eqn:Hprefix.
  - apply HasPrefix_spec in Hprefix as [rest ->]. rewrite drop_bytes_app.
    cbn [flat_map]. rewrite app_nil_r. split.
    + intros (x & Hin & Hx). apply String.eqb_eq in Hx as <-.
      apply residuals_hex_run in Hin as (u & -> & Hlen & Hhex).
      exists u. by rewrite app_empty_r.
    + intros (digits & Heq & Hlen & Hhex).
      assert (rest = digits) as -> by (unfold engineImagePrefix in Heq; simpl in Heq; congruence).
      exists "". split; [|done]. apply residuals_hex_run. exists digits.
      by rewrite app_empty_r.
  - cbn [flat_map]. split; [intros (x & [] & _)|].
    intros (digits & -> & _). by rewrite HasPrefix_app in Hprefix.
Qed.

Lemma slice_to_substring (n : nat) (s : string) :
  (n ≤ String.length s)%nat → slice_to n s = Some (String.substring 0 n s).
Proof.
  revert s. induction n as [|n IH]; intros s Hlen.
  - by destruct s.
  - destruct s as [|c s]; simpl in *; [lia|]. rewrite IH by lia. done.
Qed.

Section IdentityFacts.
Context `{Collaborators}.
Hypothesis digest_length : ∀ seed, (8 ≤ String.length (GetStringChecksum seed))%nat.

Lemma checksumName_value (prefix image : string) :
  checksumName prefix image
  = Some (prefix +:+ String.substring 0 8 (GetStringChecksum (TrimSpace image))).
Proof.
  unfold checksumName, ImageChecksumNameLength.
  by rewrite slice_to_substring by apply digest_length.
Qed.

End IdentityFacts.

(** C5: with a digest of at least eight characters, each deriver returns
    its prefix followed by the first eight characters of the digest of
    the trimmed seed; it is a function of the trimmed seed alone, so the
    same seed always gives the same name; and the recognizer accepts
    exactly the strings made of [ei-] and eight hexadecimal digits,
    whether or not they are the digest of a seed. *)
Theorem checksum_identities (C : Collaborators) :
  (∀ seed, (8 ≤ String.length (GetStringChecksum seed))%nat) →
  (∀ image,
      GetEngineImageChecksumName image
      = Some ("ei-" +:+ String.substring 0 8 (GetStringChecksum (TrimSpace image)))
      ∧ GetInstanceManagerImageChecksumName image
        = Some ("imi-" +:+ String.substring 0 8 (GetStringChecksum (TrimSpace image)))
      ∧ GetShareManagerImageChecksumName image
        = Some ("smi-" +:+ String.substring 0 8 (GetStringChecksum (TrimSpace image))))
  ∧ (∀ image1 image2, TrimSpace image1 = TrimSpace image2 →
        GetEngineImageChecksumName image1 = GetEngineImageChecksumName image2
        ∧ GetInstanceManagerImageChecksumName image1 = GetInstanceManagerImageChecksumName image2
        ∧ GetShareManagerImageChecksumName image1 = GetShareManagerImageChecksumName image2)
  ∧ (∀ name,
        ValidateEngineImageChecksumName name = true
        ↔ ∃ digits, name = "ei-" +:+ digits
                    ∧ String.length digits = 8 ∧ allHexDigits digits = true).
Proof.
  intros Hlen. split; [|split].
  - intros image. repeat split; by apply checksumName_value.
  - intros image1 image2 Htrim.
    unfold GetEngineImageChecksumName, GetInstanceManagerImageChecksumName,
      GetShareManagerImageChecksumName, checksumName.
    by rewrite Htrim.
  - apply ValidateEngineImageChecksumName_shape.
Qed.

Lemma checksum_identities_witness :
  @GetEngineImageChecksumName exampleCollaborators "longhornio/longhorn-engine:v1.1.0"
  = Some "ei-cf83e135".
Proof.
  refine (proj1 (proj1 (checksum_identities exampleCollaborators _) _)).
  intros seed. vm_compute. lia.
Defined.

(** A well-shaped name that no seed of the example digest produces. *)
Example recognizer_ignores_digest :
  ValidateEngineImageChecksumName "ei-00000000" = true
  ∧ ∀ image, @GetEngineImageChecksumName exampleCollaborators image ≠ Some "ei-00000000".
Proof. split; [reflexivity|]. intros image. vm_compute. discriminate. Qed.

(** ** Labels *)

Ltac label_lookup :=
  repeat first
    [ rewrite lookup_insert_eq
    | rewrite lookup_insert_ne by (vm_compute; discriminate)
    | rewrite lookup_singleton_ne by (vm_compute; discriminate)
    | rewrite lookup_singleton_eq
    | rewrite lookup_empty ].

Ltac label_cases :=
  repeat match goal with
         | |- context [decide (?s = "")] => destruct (decide (s = "")) as [->|?]
         end;
  repeat match goal with
         | |- context [decide (?s ≠ "")] => destruct (decide (s ≠ ""))
         end;
  try done.

Lemma GetBackingImageManagerLabels_keys (nodeID diskUUID : string) :
  GetBackingImageManagerLabels nodeID diskUUID !! GetLonghornLabelKey LonghornLabelDiskUUID
  = (if decide (diskUUID = "") then None else Some diskUUID)
  ∧ GetBackingImageManagerLabels nodeID diskUUID !! GetLonghornLabelKey LonghornLabelNode
    = (if decide (nodeID = "") then None else Some nodeID).
Proof.
  unfold GetBackingImageManagerLabels, GetBaseLabelsForSystemManagedComponent.
  split; label_cases; label_lookup; reflexivity.
Qed.

Lemma GetBackingImageDataSourceLabels_keys (name nodeID diskUUID : string) :
  GetBackingImageDataSourceLabels name nodeID diskUUID
    !! GetLonghornLabelKey LonghornLabelBackingImageDataSource
  = (if decide (name = "") then None else Some name)
  ∧ GetBackingImageDataSourceLabels name nodeID diskUUID !! GetLonghornLabelKey LonghornLabelDiskUUID
    = (if decide (diskUUID = "") then None else Some diskUUID)
  ∧ GetBackingImageDataSourceLabels name nodeID diskUUID !! GetLonghornLabelKey LonghornLabelNode
    = (if decide (nodeID = "") then None else Some nodeID).
Proof.
  unfold GetBackingImageDataSourceLabels, GetBaseLabelsForSystemManagedComponent.
  repeat split; label_cases; label_lookup; reflexivity.
Qed.

Lemma GetCronJobLabels_keys (volumeName : string) (job : RecurringJob) :
  GetCronJobLabels volumeName job !! LonghornLabelVolume = Some volumeName
  ∧ GetCronJobLabels volumeName job !! GetLonghornLabelKey LonghornLabelCronJobTask = Some (Task job)
  ∧ GetCronJobPodLabels volumeName job !! LonghornLabelVolume = Some volumeName
  ∧ GetCronJobPodLabels volumeName job !! GetLonghornLabelKey LonghornLabelCronJobTask
    = Some (Task job).
Proof.
  unfold GetCronJobLabels, GetCronJobPodLabels, GetBaseLabelsForSystemManagedComponent.
  repeat split; label_lookup; reflexivity.
Qed.

Section ImageLabelFacts.
Context `{Collaborators}.
Hypothesis digest_length : ∀ seed, (8 ≤ String.length (GetStringChecksum seed))%nat.

Lemma GetInstanceManagerLabels_keys (node image : string) (managerType : InstanceManagerType) :
  ∃ labels, GetInstanceManagerLabels node image managerType = Some labels
    ∧ labels !! GetLonghornLabelKey LonghornLabelNode
      = (if decide (node = "") then None else Some node)
    ∧ labels !! GetLonghornLabelKey LonghornLabelInstanceManagerImage
      = (if decide (image = "") then None
         else Some ("imi-" +:+ String.substring 0 8
                      (GetStringChecksum (TrimSpace (GetImageCanonicalName image)))))
    ∧ labels !! GetLonghornLabelKey LonghornLabelInstanceManagerType = Some managerType.
Proof.
  unfold GetInstanceManagerLabels, GetInstanceManagerImageChecksumName,
    GetBaseLabelsForSystemManagedComponent.
  rewrite checksumName_value by done. cbn [mbind option_bind].
  label_cases; (eexists; split; [reflexivity|]); repeat split; label_lookup; reflexivity.
Qed.

Lemma GetShareManagerLabels_keys (name image : string) :
  ∃ labels, GetShareManagerLabels name image = Some labels
    ∧ labels !! GetLonghornLabelKey LonghornLabelShareManager
      = (if decide (name = "") then None else Some name)
    ∧ labels !! GetLonghornLabelKey LonghornLabelShareManagerImage
      = (if decide (image = "") then None
         else Some ("smi-" +:+ String.substring 0 8
                      (GetStringChecksum (TrimSpace (GetImageCanonicalName image))))).
Proof.
  unfold GetShareManagerLabels, GetShareManagerImageChecksumName,
    GetBaseLabelsForSystemManagedComponent.
  rewrite checksumName_value by done. cbn [mbind option_bind].
  label_cases; (eexists; split; [reflexivity|]); repeat split; label_lookup; reflexivity.
Qed.

End ImageLabelFacts.

(** C6, as the claim states it, fails: the cron-job labels of an empty
    volume name and an empty task hold both keys, with empty values, and
    so does the type key of the instance-manager labels. *)
Lemma empty_attribute_key_present :
  GetCronJobLabels "" {| Task := "" |} !! LonghornLabelVolume = Some ""
  ∧ GetCronJobLabels "" {| Task := "" |} !! GetLonghornLabelKey LonghornLabelCronJobTask = Some ""
  ∧ ∃ labels, @GetInstanceManagerLabels exampleCollaborators "node-1" "" "" = Some labels
              ∧ labels !! GetLonghornLabelKey LonghornLabelInstanceManagerType = Some "".
Proof.
  split; [reflexivity|]. split; [reflexivity|].
  eexists. split; reflexivity.
Qed.

(** C6, amended: the keys set under a guard (node, disk UUID, the name of
    a backing-image data source, the name and image of a share manager,
    the image of an instance manager) are present exactly when their
    attribute is not empty, and then never with an empty value; the
    volume-name and task keys of the cron-job labels and the type key of
    the instance-manager labels are set without a guard and always
    present, with the attribute as their value. *)
Theorem guarded_label_keys (C : Collaborators) :
  (∀ seed, (8 ≤ String.length (GetStringChecksum seed))%nat) →
  (∀ nodeID diskUUID,
      GetBackingImageManagerLabels nodeID diskUUID !! GetLonghornLabelKey LonghornLabelDiskUUID
      = (if decide (diskUUID = "") then None else Some diskUUID)
      ∧ GetBackingImageManagerLabels nodeID diskUUID !! GetLonghornLabelKey LonghornLabelNode
        = (if decide (nodeID = "") then None else Some nodeID))
  ∧ (∀ name nodeID diskUUID,
        GetBackingImageDataSourceLabels name nodeID diskUUID
          !! GetLonghornLabelKey LonghornLabelBackingImageDataSource
        = (if decide (name = "") then None else Some name)
        ∧ GetBackingImageDataSourceLabels name nodeID diskUUID
            !! GetLonghornLabelKey LonghornLabelDiskUUID
          = (if decide (diskUUID = "") then None else Some diskUUID)
        ∧ GetBackingImageDataSourceLabels name nodeID diskUUID
            !! GetLonghornLabelKey LonghornLabelNode
          = (if decide (nodeID = "") then None else Some nodeID))
  ∧ (∀ node image managerType,
        ∃ labels, GetInstanceManagerLabels node image managerType = Some labels
          ∧ labels !! GetLonghornLabelKey LonghornLabelNode
            = (if decide (node = "") then None else Some node)
          ∧ labels !! GetLonghornLabelKey LonghornLabelInstanceManagerImage
            = (if decide (image = "") then None
               else Some ("imi-" +:+ String.substring 0 8
                            (GetStringChecksum (TrimSpace (GetImageCanonicalName image)))))
          ∧ labels !! GetLonghornLabelKey LonghornLabelInstanceManagerType = Some managerType)
  ∧ (∀ name image,
        ∃ labels, GetShareManagerLabels name image = Some labels
          ∧ labels !! GetLonghornLabelKey LonghornLabelShareManager
            = (if decide (name = "") then None else Some name)
          ∧ labels !! GetLonghornLabelKey LonghornLabelShareManagerImage
            = (if decide (image = "") then None
               else Some ("smi-" +:+ String.substring 0 8
                            (GetStringChecksum (TrimSpace (GetImageCanonicalName image))))))
  ∧ (∀ volumeName job,
        GetCronJobLabels volumeName job !! LonghornLabelVolume = Some volumeName
        ∧ GetCronJobLabels volumeName job !! GetLonghornLabelKey LonghornLabelCronJobTask
          = Some (Task job)
        ∧ GetCronJobPodLabels volumeName job !! LonghornLabelVolume = Some volumeName
        ∧ GetCronJobPodLabels volumeName job !! GetLonghornLabelKey LonghornLabelCronJobTask
          = Some (Task job)).
Proof.
  intros Hlen. split; [|split; [|split; [|split]]].
  - apply GetBackingImageManagerLabels_keys.
  - apply GetBackingImageDataSourceLabels_keys.
  - intros. by apply GetInstanceManagerLabels_keys.
  - intros. by apply GetShareManagerLabels_keys.
  - apply GetCronJobLabels_keys.
Qed.

Lemma guarded_label_keys_witness :
  GetBackingImageManagerLabels "" "disk-1" !! GetLonghornLabelKey LonghornLabelNode = None
  ∧ GetBackingImageManagerLabels "" "disk-1" !! GetLonghornLabelKey LonghornLabelDiskUUID
    = Some "disk-1".
Proof.
  assert (∀ seed, (8 ≤ String.length (@GetStringChecksum exampleCollaborators seed))%nat) as Hlen
    by (intros seed; vm_compute; lia).
  destruct (proj1 (guarded_label_keys exampleCollaborators Hlen) "" "disk-1") as [Hdisk Hnode].
  split; [exact Hnode | exact Hdisk].
Defined.

(** ** Disk annotations *)

Lemma pathInUse_spec (m : gmap string DiskSpec) (path : string) :
  pathInUse m path = true ↔ ∃ name spec, m !! name = Some spec ∧ Path spec = path.
Proof.
  unfold pathInUse. rewrite existsb_exists. split.
  - intros ([name spec] & Hin & Hpath). exists name, spec.
    apply list_elem_of_In, elem_of_map_to_list in Hin.
    by apply bool_decide_eq_true in Hpath.
  - intros (name & spec & Hlookup & Hpath). exists (name, spec). split.
    + by apply list_elem_of_In, elem_of_map_to_list.
    + by apply bool_decide_eq_true.
Qed.

Lemma pathInUse_false (m : gmap string DiskSpec) (path : string) :
  pathInUse m path = false ↔ ∀ name spec, m !! name = Some spec → Path spec ≠ path.
Proof.
  rewrite <- not_true_iff_false, pathInUse_spec. split.
  - intros Hnone name spec Hlookup Hpath. apply Hnone. by exists name, spec.
  - intros Hall (name & spec & Hlookup & Hpath). by eapply Hall.
Qed.

Lemma NoDup_fmap_eq {A B} (f : A → B) (l : list A) (x y : A) :
  NoDup (f <$> l) → x ∈ l → y ∈ l → f x = f y → x = y.
Proof.
  intros Hnodup Hx Hy Heq.
  apply list_elem_of_lookup in Hx as [i Hi]. apply list_elem_of_lookup in Hy as [j Hj].
  assert (i = j) as ->.
  { eapply (NoDup_lookup _ i j (f x)); [done | |].
    - by rewrite list_lookup_fmap, Hi.
    - by rewrite list_lookup_fmap, Hj, Heq. }
  congruence.
Qed.

Lemma NoDup_snoc {A} (l : list A) (x : A) :
  NoDup (l ++ [x]) ↔ NoDup l ∧ x ∉ l.
Proof.
  rewrite NoDup_app. split.
  - intros (Hl & Hdisj & _). split; [done|]. intros Hin. apply (Hdisj x Hin). by left.
  - intros [Hl Hx]. split; [done|]. split; [|apply NoDup_singleton].
    intros y Hy Hin. apply list_elem_of_singleton in Hin as ->. done.
Qed.

(** The loop on a filesystem whose metadata does not change. *)
Section DiskProofs.
Context {World : Type} `{Collaborators} `{FileSystem World}.
Variable info : string → errorString + DiskInfo.
Hypothesis stable : ∀ path w, fst (GetDiskInfo path w) = info path.

Lemma validDiskList_snoc (accepted : list DiskSpecWithName) (d : DiskSpecWithName) :
  validDiskList info (accepted ++ [d])
  ↔ validDiskList info accepted ∧ entryOK info d
    ∧ (pathOf d ∉ pathOf <$> accepted)
    ∧ (fsidOf info d ∉ fsidOf info <$> accepted)
    ∧ (nameOf info d ∉ nameOf info <$> accepted).
Proof.
  unfold validDiskList. rewrite Forall_app, Forall_singleton, !fmap_app. cbn [fmap list_fmap].
  rewrite !NoDup_snoc. tauto.
Qed.

Ltac reject := cbv [fail]; cbv beta iota; rewrite validDiskList_snoc.

Lemma checkDisk_decides (accepted : list DiskSpecWithName) (st : loopState)
    (d : DiskSpecWithName) (w : World) :
  loopInvariant info accepted st →
  match checkDisk d st w with
  | (inr st', _) => loopInvariant info (accepted ++ [d]) st'
  | (inl _, _) => ¬ validDiskList info (accepted ++ [d])
  end.
Proof.
  intros (Hvalid & Hdisks & Hfsids & Hsize).
  unfold checkDisk.
  destruct (decide (Path (embedded d) = "")) as [Hempty|Hnonempty].
  { reject. intros (_ & (Hpath & _) & _). done. }
  unfold bind at 1, getDiskInfo.
  pose proof (stable (Path (embedded d)) w) as Hinfo.
  destruct (GetDiskInfo (Path (embedded d)) w) as [[err|diskInfo] w1]; simpl in Hinfo.
  { reject. intros (_ & (_ & (di & Hdi & _) & _) & _). unfold pathOf in Hdi. congruence. }
  assert (fsidOf info d = Fsid diskInfo) as Hfsid
    by (unfold fsidOf, pathOf; by rewrite <- Hinfo).
  replace (if decide (Name d = "") then DefaultDiskPrefix +:+ Fsid diskInfo else Name d)
    with (nameOf info d) by (unfold nameOf; by rewrite Hfsid).
  destruct (pathInUse (validDisks st) (Path (embedded d))) eqn:Hinuse.
  { reject. intros (_ & _ & Hnotin & _). apply Hnotin.
    apply pathInUse_spec in Hinuse as (name & spec & Hlookup & Hpath).
    apply Hdisks in Hlookup as (d0 & Hd0 & _ & <-).
    apply list_elem_of_fmap. by exists d0. }
  destruct (existFsid st !! Fsid diskInfo) as [existing|] eqn:Hexist.
  { reject. intros (_ & _ & _ & Hnotin & _). apply Hnotin. rewrite Hfsid. apply Hfsids. by eexists. }
  destruct (Z.ltb_spec (StorageReserved (embedded d)) 0) as [Hneg|Hnonneg]; cbn [orb].
  { reject. intros (_ & (_ & (di & Hdi & Hrange) & _) & _). lia. }
  destruct (Z.gtb_spec (StorageReserved (embedded d)) (StorageMaximum diskInfo)) as [Hbig|Hfits].
  { reject. intros (_ & (_ & (di & Hdi & Hrange) & _) & _). unfold pathOf in Hdi.
    assert (di = diskInfo) as -> by congruence. lia. }
  unfold bind, validateTags.
  destruct (ValidateTags (Tags (embedded d))) as [err|tags] eqn:Htags.
  { reject. intros (_ & (_ & _ & (tags & Htags')) & _). congruence. }
  unfold ret.
  destruct (validDisks st !! nameOf info d) as [other|] eqn:Hname.
  { reject. intros (_ & _ & _ & _ & Hnotin). apply Hnotin.
    apply Hdisks in Hname as (d0 & Hd0 & Hname0 & _).
    apply list_elem_of_fmap. by exists d0. }
  replace {| Path := Path (embedded d); AllowScheduling := AllowScheduling (embedded d);
             EvictionRequested := EvictionRequested (embedded d);
             StorageReserved := StorageReserved (embedded d); Tags := tags |}
    with (specOf d) by (unfold specOf; by rewrite Htags).
  assert (entryOK info d) as Hok.
  { split; [done|]. split; [|by exists tags].
    exists diskInfo. unfold pathOf. split; [done | lia]. }
  assert (pathOf d ∉ pathOf <$> accepted) as Hpath_new.
  { intros Hin. apply list_elem_of_fmap in Hin as (d0 & Hpath & Hd0).
    rewrite pathInUse_false in Hinuse.
    apply (Hinuse (nameOf info d0) (specOf d0)); [apply Hdisks; by exists d0 | done]. }
  assert (fsidOf info d ∉ fsidOf info <$> accepted) as Hfsid_new.
  { intros Hin. apply Hfsids in Hin as [path Hpath]. rewrite Hfsid in Hpath. congruence. }
  assert (nameOf info d ∉ nameOf info <$> accepted) as Hname_new.
  { intros Hin. apply list_elem_of_fmap in Hin as (d0 & Hname0 & Hd0).
    assert (validDisks st !! nameOf info d = Some (specOf d0)) by (apply Hdisks; by exists d0).
    congruence. }
  split; [by apply validDiskList_snoc|]. cbn [validDisks existFsid].
  split; [|split].
  - intros name spec. destruct (decide (nameOf info d = name)) as [<-|Hne].
    + rewrite lookup_insert_eq. split.
      * intros [= <-]. exists d. split; [|done].
        apply elem_of_app. right. by apply list_elem_of_singleton.
      * intros (d' & Hin & Hname' & <-). apply elem_of_app in Hin as [Hin|Hin].
        -- exfalso. apply Hname_new. apply list_elem_of_fmap. by exists d'.
        -- by apply list_elem_of_singleton in Hin as ->.
    + rewrite lookup_insert_ne by done. rewrite Hdisks. split.
      * intros (d' & Hin & Hname' & Hspec). exists d'. split; [|done].
        apply elem_of_app. by left.
      * intros (d' & Hin & Hname' & Hspec). apply elem_of_app in Hin as [Hin|Hin].
        -- by exists d'.
        -- by apply list_elem_of_singleton in Hin as ->.
  - intros fsid. rewrite fmap_app, elem_of_app, lookup_insert_is_Some, <- Hfsid, Hfsids.
    cbn [fmap list_fmap]. rewrite list_elem_of_singleton.
    destruct (decide (fsidOf info d = fsid)); intuition congruence.
  - rewrite map_size_insert_None by done. rewrite List.length_app. simpl. lia.
Qed.

Lemma validDiskList_prefix (l1 l2 : list DiskSpecWithName) :
  validDiskList info (l1 ++ l2) → validDiskList info l1.
Proof.
  unfold validDiskList. rewrite Forall_app, !fmap_app, !NoDup_app. tauto.
Qed.

Lemma checkDisks_decides (disks accepted : list DiskSpecWithName) (st : loopState) (w : World) :
  loopInvariant info accepted st →
  match checkDisks disks st w with
  | (inr st', _) => loopInvariant info (accepted ++ disks) st'
  | (inl _, _) => ¬ validDiskList info (accepted ++ disks)
  end.
Proof.
  revert accepted st w. induction disks as [|d disks IH]; intros accepted st w Hinv.
  - cbn. by rewrite app_nil_r.
  - cbn [checkDisks]. unfold bind.
    pose proof (checkDisk_decides accepted st d w Hinv) as Hstep.
    destruct (checkDisk d st w) as [[err|st1] w1].
    + intros Hvalid. apply Hstep. apply (validDiskList_prefix _ disks).
      by rewrite <- app_assoc.
    + specialize (IH (accepted ++ [d])%list st1 w1 Hstep).
      by rewrite <- app_assoc in IH.
Qed.

Lemma loopInvariant_init :
  loopInvariant info [] {| validDisks := ∅; existFsid := ∅ |}.
Proof.
  split; [|split; [|split]].
  - repeat split; constructor.
  - intros name spec. cbn. rewrite lookup_empty. split; [done|].
    intros (d & Hin & _). by apply elem_of_nil in Hin.
  - intros fsid. cbn. rewrite lookup_empty. split.
    + by intros [? ?].
    + intros Hin. by apply elem_of_nil in Hin.
  - reflexivity.
Qed.


Lemma violation_invalid (disks : list DiskSpecWithName) :
  violation info disks → ¬ validDiskList info disks.
Proof.
  intros Hviolation (Hall & Hpaths & Hfsids & Hnames).
  rewrite Forall_forall in Hall.
  destruct Hviolation as [[(d & Hd & Hempty) | (i & j & di & dj & Hij & Hi & Hj & Hsame)]
    | [(i & j & di & dj & infoi & infoj & Hij & Hi & Hj & _ & Hinfoi & Hinfoj & Hsame)
    | [(d & Hd & [Hneg | (diskInfo & Hinfo & Hbig)])
    | (i & j & di & dj & Hij & Hi & Hj & Hsame)]]].
  - by destruct (Hall d Hd) as (Hpath & _).
  - apply Hij. apply (NoDup_lookup _ i j (pathOf di) Hpaths).
    + by rewrite list_lookup_fmap, Hi.
    + by rewrite list_lookup_fmap, Hj, Hsame.
  - apply Hij. apply (NoDup_lookup _ i j (fsidOf info di) Hfsids).
    + by rewrite list_lookup_fmap, Hi.
    + rewrite list_lookup_fmap, Hj. cbn. f_equal. unfold fsidOf. by rewrite Hinfoi, Hinfoj.
  - destruct (Hall d Hd) as (_ & (diskInfo' & Hinfo' & Hfits) & _). lia.
  - destruct (Hall d Hd) as (_ & (diskInfo' & Hinfo' & Hfits) & _).
    assert (diskInfo' = diskInfo) as -> by congruence. lia.
  - apply Hij. apply (NoDup_lookup _ i j (nameOf info di) Hnames).
    + by rewrite list_lookup_fmap, Hi.
    + by rewrite list_lookup_fmap, Hj, Hsame.
Qed.

End DiskProofs.

Section DiskOrder.
Context {World : Type} `{Collaborators} `{FileSystem World}.

Lemma checkDisks_app (l1 l2 : list DiskSpecWithName) (st : loopState) (w : World) :
  checkDisks (l1 ++ l2) st w
  = match checkDisks l1 st w with
    | (inl err, w') => (inl err, w')
    | (inr st', w') => checkDisks l2 st' w'
    end.
Proof.
  revert st w. induction l1 as [|d l1 IH]; intros st w; [done|].
  cbn [app checkDisks]. unfold bind.
  destruct (checkDisk d st w) as [[err|st1] w1]; [done|]. apply IH.
Qed.

Lemma checkDisk_records_path (d : DiskSpecWithName) (st st' : loopState) (w w' : World) :
  checkDisk d st w = (inr st', w') →
  pathOf d ≠ ""
  ∧ pathInUse (validDisks st) (pathOf d) = false
  ∧ pathInUse (validDisks st') (pathOf d) = true
  ∧ ∀ path, pathInUse (validDisks st) path = true → pathInUse (validDisks st') path = true.
Proof.
  unfold checkDisk, bind, getDiskInfo, validateTags, fail, ret.
  destruct (decide (Path (embedded d) = "")); [done|].
  destruct (GetDiskInfo (Path (embedded d)) w) as [[err|diskInfo] w1]; [done|].
  destruct (pathInUse (validDisks st) (Path (embedded d))) eqn:Hfresh; [done|].
  destruct (existFsid st !! Fsid diskInfo); [done|].
  destruct (_ || _); [done|].
  destruct (ValidateTags (Tags (embedded d))) as [err|tags]; [done|].
  destruct (validDisks st !! _) eqn:Hfree; [done|].
  intros [= <- <-]. cbn [validDisks]. split; [done|]. split; [done|]. split.
  - apply pathInUse_spec. eexists _, _. split; [apply lookup_insert_eq | done].
  - intros path Hpath. apply pathInUse_spec in Hpath as (name & spec & Hlookup & Hspec).
    apply pathInUse_spec. exists name, spec. split; [|done].
    rewrite lookup_insert_ne; [done|]. intros <-.
    discriminate (eq_trans (eq_sym Hlookup) Hfree).
Qed.

Lemma checkDisks_records_paths (disks : list DiskSpecWithName) (st st' : loopState) (w w' : World) :
  checkDisks disks st w = (inr st', w') →
  (∀ d, d ∈ disks → pathOf d ≠ "" ∧ pathInUse (validDisks st') (pathOf d) = true)
  ∧ ∀ path, pathInUse (validDisks st) path = true → pathInUse (validDisks st') path = true.
Proof.
  revert st w. induction disks as [|d disks IH]; intros st w.
  - intros [= <- <-]. split; [|done]. intros d Hd. by apply elem_of_nil in Hd.
  - cbn [checkDisks]. unfold bind.
    destruct (checkDisk d st w) as [[err|st1] w1] eqn:Hstep; [done|].
    intros Hrest. apply checkDisk_records_path in Hstep as (Hpath & _ & Hrecorded & Hkept).
    apply IH in Hrest as [Hdisks Hkept']. split; [|by auto].
    intros d' Hd'. apply elem_of_cons in Hd' as [->|Hd']; [|by auto].
    split; [done | by auto].
Qed.

(** On any filesystem, the entries of an accepted list have distinct
    paths. *)
Lemma checkDisks_distinct_paths (disks : list DiskSpecWithName) (st st' : loopState) (w w' : World) :
  checkDisks disks st w = (inr st', w') →
  NoDup (pathOf <$> disks)
  ∧ ∀ d, d ∈ disks → pathInUse (validDisks st) (pathOf d) = false.
Proof.
  revert st w. induction disks as [|d disks IH]; intros st w.
  - intros _. split; [constructor|]. intros d Hd. by apply elem_of_nil in Hd.
  - cbn [checkDisks]. unfold bind.
    destruct (checkDisk d st w) as [[err|st1] w1] eqn:Hstep; [done|].
    intros Hrest. apply checkDisk_records_path in Hstep as (_ & Hfresh & Hrecorded & Hkept).
    apply IH in Hrest as [Hnodup Hfree]. split.
    + cbn [fmap list_fmap]. apply NoDup_cons. split; [|done].
      intros Hin. apply list_elem_of_fmap in Hin as (d' & Hsame & Hd').
      specialize (Hfree d' Hd'). rewrite <- Hsame in Hfree. congruence.
    + intros d' Hd'. apply elem_of_cons in Hd' as [->|Hd']; [done|].
      destruct (pathInUse (validDisks st) (pathOf d')) eqn:Hused; [|done].
      apply Hkept in Hused. specialize (Hfree d' Hd'). congruence.
Qed.

(** On any filesystem, a list with an empty or a repeated path is not
    accepted. *)
Lemma syntacticViolation_rejected (disks : list DiskSpecWithName) (st : loopState) (w : World) :
  syntacticViolation disks → ∃ err w', checkDisks disks st w = (inl err, w').
Proof.
  intros Hviolation.
  destruct (checkDisks disks st w) as [[err|st'] w'] eqn:Hloop; [by eexists _, _|].
  exfalso. destruct Hviolation as [(d & Hd & Hempty) | (i & j & di & dj & Hij & Hi & Hj & Hsame)].
  - apply checkDisks_records_paths in Hloop as [Hpaths _].
    by destruct (Hpaths d Hd) as [Hnonempty _].
  - apply checkDisks_distinct_paths in Hloop as [Hnodup _].
    apply Hij. apply (NoDup_lookup _ i j (pathOf di) Hnodup).
    + by rewrite list_lookup_fmap, Hi.
    + by rewrite list_lookup_fmap, Hj, Hsame.
Qed.

Lemma checkDisk_repeated_path (d : DiskSpecWithName) (st : loopState) (w : World) :
  pathOf d ≠ "" →
  pathInUse (validDisks st) (pathOf d) = true →
  checkDisk d st w
  = match GetDiskInfo (pathOf d) w with
    | (inl err, w') => (inl (ErrPropagated err), w')
    | (inr _, w') => (inl (ErrDuplicatePath (pathOf d)), w')
    end.
Proof.
  unfold pathOf. intros Hpath Hinuse. unfold checkDisk, bind, getDiskInfo.
  destruct (decide (Path (embedded d) = "")); [done|].
  destruct (GetDiskInfo (Path (embedded d)) w) as [[err|diskInfo] w1]; [done|].
  by rewrite Hinuse.
Qed.

End DiskOrder.

(** C1: on a filesystem whose metadata does not change during the call,
    an annotation that decodes to [k] entries with [k] distinct non-empty
    paths, [k] distinct filesystem ids, reservations within
    [[0, StorageMaximum]], accepted tags and [k] distinct names (the given
    one, or the default prefix and the filesystem id) is accepted: the
    error is nil and the mapping has [k] entries, its keys are exactly
    those names, each name maps to its entry with the tags normalised, no
    two entries share a path or a filesystem id, and every reservation
    lies within [[0, StorageMaximum]]. *)
Theorem CreateDisksFromAnnotation_accepts {World : Type} (C : Collaborators)
    (F : FileSystem World) (info : string → errorString + DiskInfo)
    (annotation : string) (disks : list DiskSpecWithName) (w : World) :
  (∀ path w0, fst (GetDiskInfo path w0) = info path) →
  json_Unmarshal annotation = inr disks →
  NoDup (pathOf <$> disks) →
  (∀ d, d ∈ disks → pathOf d ≠ "") →
  (∀ d, d ∈ disks → ∃ diskInfo, info (pathOf d) = inr diskInfo
      ∧ (0 ≤ StorageReserved (embedded d) ≤ StorageMaximum diskInfo)%Z) →
  NoDup (fsidOf info <$> disks) →
  (∀ d, d ∈ disks → ∃ tags, ValidateTags (Tags (embedded d)) = inr tags) →
  NoDup (nameOf info <$> disks) →
  ∃ m w', CreateDisksFromAnnotation annotation w = ((Some m, None), w')
    ∧ size m = length disks
    ∧ (∀ name, is_Some (m !! name) ↔ name ∈ nameOf info <$> disks)
    ∧ (∀ d, d ∈ disks → m !! nameOf info d = Some (specOf d))
    ∧ (∀ n1 n2 s1 s2, n1 ≠ n2 → m !! n1 = Some s1 → m !! n2 = Some s2 →
          Path s1 ≠ Path s2
          ∧ ∀ i1 i2, info (Path s1) = inr i1 → info (Path s2) = inr i2 → Fsid i1 ≠ Fsid i2)
    ∧ (∀ name spec, m !! name = Some spec →
          ∃ diskInfo, info (Path spec) = inr diskInfo
            ∧ (0 ≤ StorageReserved spec ≤ StorageMaximum diskInfo)%Z).
Proof.
  intros Hstable Hjson Hpaths Hnonempty Hinfo Hfsids Htags Hnames.
  assert (validDiskList info disks) as Hvalid.
  { split; [|done]. apply Forall_forall. intros d Hd.
    split; [by apply Hnonempty|]. split; [by apply Hinfo | by apply Htags]. }
  unfold CreateDisksFromAnnotation. rewrite Hjson.
  pose proof (checkDisks_decides info Hstable disks [] _ w (loopInvariant_init info)) as Hloop.
  destruct (checkDisks disks _ w) as [[err|st] w']; [done|].
  destruct Hloop as (_ & Hdisks & _ & Hsize). cbn [app] in *.
  exists (validDisks st), w'. split; [done|]. split; [done|].
  split; [|split; [|split]].
  - intros name. split.
    + intros [spec Hspec]. apply Hdisks in Hspec as (d & Hd & <- & _).
      apply list_elem_of_fmap. by exists d.
    + intros Hin. apply list_elem_of_fmap in Hin as (d & -> & Hd).
      exists (specOf d). apply Hdisks. by exists d.
  - intros d Hd. apply Hdisks. by exists d.
  - intros n1 n2 s1 s2 Hne H1 H2.
    apply Hdisks in H1 as (d1 & Hd1 & <- & <-). apply Hdisks in H2 as (d2 & Hd2 & <- & <-).
    assert (d1 ≠ d2) as Hdiff by congruence. split.
    + intros Hsame. apply Hdiff. by apply (NoDup_fmap_eq pathOf disks).
    + intros i1 i2 Hi1 Hi2 Hsame. apply Hdiff. apply (NoDup_fmap_eq (fsidOf info) disks); [done..|].
      unfold fsidOf, pathOf. cbn [specOf Path] in Hi1, Hi2. by rewrite Hi1, Hi2.
  - intros name spec Hspec. apply Hdisks in Hspec as (d & Hd & _ & <-).
    by apply Hinfo.
Qed.

(** C2: an annotation that does not decode, or that decodes to a list
    with an empty path or a repeated path, gives a non-nil error and a nil
    mapping on any filesystem; so does, on a filesystem whose metadata
    does not change during the call, a list with two paths on one
    filesystem, a reservation below zero or above [StorageMaximum], or a
    repeated name.  And the first entry that fails ends the call: the
    error of a prefix of the list is the error of the whole call, with
    the filesystem as that entry left it. *)
Theorem CreateDisksFromAnnotation_rejects {World : Type} (C : Collaborators)
    (F : FileSystem World) (annotation : string) (w : World) :
  (∃ err, json_Unmarshal annotation = inl err)
  ∨ (∃ disks, json_Unmarshal annotation = inr disks ∧ syntacticViolation disks)
  ∨ (∃ info disks, (∀ path w0, fst (GetDiskInfo path w0) = info path)
       ∧ json_Unmarshal annotation = inr disks ∧ violation info disks) →
  (∃ err w', CreateDisksFromAnnotation annotation w = ((None, Some err), w'))
  ∧ (∀ (l1 l2 : list DiskSpecWithName) w0 err w',
        json_Unmarshal annotation = inr (l1 ++ l2)%list →
        checkDisks l1 {| validDisks := ∅; existFsid := ∅ |} w0 = (inl err, w') →
        CreateDisksFromAnnotation annotation w0 = ((None, Some err), w')).
Proof.
  intros Hbad. split.
  - unfold CreateDisksFromAnnotation.
    destruct Hbad as [[err ->] | [(disks & -> & Hviolation)
      | (info & disks & Hstable & -> & Hviolation)]]; [by eexists _, _| |].
    + destruct (syntacticViolation_rejected disks {| validDisks := ∅; existFsid := ∅ |} w
                  Hviolation) as (err & w' & ->).
      by eexists _, _.
    + pose proof (checkDisks_decides info Hstable disks [] _ w (loopInvariant_init info))
        as Hloop.
      destruct (checkDisks disks _ w) as [[err|st] w']; [by eexists _, _|].
      destruct Hloop as [Hvalid _]. by apply violation_invalid in Hviolation.
  - intros l1 l2 w0 err w' Hjson Hprefix. unfold CreateDisksFromAnnotation.
    by rewrite Hjson, checkDisks_app, Hprefix.
Qed.

(** C3, amended: the repeated path is checked after the filesystem lookup
    of the entry and before every other check of it.  When the entries
    before it have been accepted, the call looks the repeated path up; if
    the lookup fails the call returns the error of the lookup, and if it
    succeeds the call returns the duplicate-path error. *)
Theorem duplicate_path_checked_after_lookup {World : Type} (C : Collaborators)
    (F : FileSystem World) (annotation : string)
    (pre post : list DiskSpecWithName) (d : DiskSpecWithName) (st : loopState) (w w1 : World) :
  json_Unmarshal annotation = inr (pre ++ d :: post)%list →
  checkDisks pre {| validDisks := ∅; existFsid := ∅ |} w = (inr st, w1) →
  (∃ d0, d0 ∈ pre ∧ pathOf d0 = pathOf d) →
  CreateDisksFromAnnotation annotation w
  = match GetDiskInfo (pathOf d) w1 with
    | (inl err, w2) => ((None, Some (ErrPropagated err)), w2)
    | (inr _, w2) => ((None, Some (ErrDuplicatePath (pathOf d))), w2)
    end.
Proof.
  intros Hjson Hpre (d0 & Hd0 & Hsame).
  unfold CreateDisksFromAnnotation. rewrite Hjson, checkDisks_app, Hpre.
  apply checkDisks_records_paths in Hpre as [Hrecorded _].
  destruct (Hrecorded d0 Hd0) as [Hnonempty Hinuse]. rewrite Hsame in Hnonempty, Hinuse.
  cbn [checkDisks]. unfold bind. rewrite checkDisk_repeated_path by done.
  by destruct (GetDiskInfo (pathOf d) w1) as [[err|diskInfo] w2].
Qed.

Lemma duplicate_path_checked_after_lookup_witness :
  @CreateDisksFromAnnotation _ exampleCollaborators flakyFS repeatedAnnotation []
  = ((None, Some (ErrPropagated "input/output error")), ["/mnt/a"; "/mnt/a"]).
Proof.
  refine (duplicate_path_checked_after_lookup exampleCollaborators flakyFS repeatedAnnotation
            [diskEntry "/mnt/a" "" 0 []] [] (diskEntry "/mnt/a" "" 0 [])
            {| validDisks := {[ "default-disk-F1" := @specOf exampleCollaborators (diskEntry "/mnt/a" "" 0 []) ]};
               existFsid := {[ "F1" := "/mnt/a" ]} |} [] ["/mnt/a"] _ _ _).
  - vm_compute. reflexivity.
  - vm_compute. reflexivity.
  - exists (diskEntry "/mnt/a" "" 0 []). split; [|reflexivity]. by left.
Defined.

(** The two examples of the specification: the annotation of two disks
    on two filesystems is accepted under the two default names, and the
    annotation of a disk and its bind mount is rejected. *)
Example two_disks_accepted :
  @CreateDisksFromAnnotation _ exampleCollaborators exampleFS exampleAnnotation []
  = ((Some {[ "default-disk-F1" := {| Path := "/mnt/a"; AllowScheduling := false;
                                      EvictionRequested := false; StorageReserved := 0;
                                      Tags := [] |};
              "default-disk-F2" := {| Path := "/mnt/b"; AllowScheduling := false;
                                      EvictionRequested := false; StorageReserved := 100;
                                      Tags := ["ssd"] |} ]}, None),
     ["/mnt/a"; "/mnt/b"]).
Proof. vm_compute. reflexivity. Qed.

Example bind_mount_rejected :
  @CreateDisksFromAnnotation _ exampleCollaborators exampleFS bindMountAnnotation []
  = ((None, Some (ErrSameFilesystem "/mnt/a2" "/mnt/a" "F1")), ["/mnt/a"; "/mnt/a2"]).
Proof. vm_compute. reflexivity. Qed.

(** C3, as the claim states it, fails.  With a disk that goes away after
    its first lookup the repeated entry is looked up and the error of
    that lookup is returned, not the duplicate-path error; and on a
    steady filesystem, where the duplicate-path error is returned, the
    log still shows the lookup of the repeated entry. *)
Lemma lookup_precedes_duplicate_path_check :
  @CreateDisksFromAnnotation _ exampleCollaborators flakyFS repeatedAnnotation []
  = ((None, Some (ErrPropagated "input/output error")), ["/mnt/a"; "/mnt/a"])
  ∧ @CreateDisksFromAnnotation _ exampleCollaborators exampleFS repeatedAnnotation []
    = ((None, Some (ErrDuplicatePath "/mnt/a")), ["/mnt/a"; "/mnt/a"]).
Proof. split; vm_compute; reflexivity. Qed.

Lemma CreateDisksFromAnnotation_accepts_witness :
  ∃ m, fst (@CreateDisksFromAnnotation _ exampleCollaborators exampleFS exampleAnnotation [])
       = (Some m, None) ∧ size m = 2.
Proof.
  destruct (CreateDisksFromAnnotation_accepts exampleCollaborators exampleFS exampleDiskInfo
              exampleAnnotation exampleDisks [])
    as (m & w' & Hresult & Hsize & _).
  - intros path w0. reflexivity.
  - vm_compute. reflexivity.
  - apply (bool_decide_unpack _). vm_compute. reflexivity.
  - intros d Hd. repeat (apply elem_of_cons in Hd as [->|Hd]); [vm_compute; discriminate.. |].
    by apply elem_of_nil in Hd.
  - intros d Hd. repeat (apply elem_of_cons in Hd as [->|Hd]);
      [eexists; split; [reflexivity | simpl; lia].. |].
    by apply elem_of_nil in Hd.
  - apply (bool_decide_unpack _). vm_compute. reflexivity.
  - intros d Hd. repeat (apply elem_of_cons in Hd as [->|Hd]);
      [vm_compute; eexists; reflexivity.. |].
    by apply elem_of_nil in Hd.
  - apply (bool_decide_unpack _). vm_compute. reflexivity.
  - exists m. rewrite Hresult. split; [reflexivity | exact Hsize].
Defined.

Lemma CreateDisksFromAnnotation_rejects_witness :
  ∃ err w', @CreateDisksFromAnnotation _ exampleCollaborators exampleFS bindMountAnnotation []
            = ((None, Some err), w').
Proof.
  refine (proj1 (CreateDisksFromAnnotation_rejects exampleCollaborators exampleFS
                   bindMountAnnotation [] _)).
  right. right. exists exampleDiskInfo, bindMountDisks.
  split; [intros path w0; reflexivity|]. split; [vm_compute; reflexivity|].
  right. left.
  exists 0, 1, (diskEntry "/mnt/a" "" 0 []), (diskEntry "/mnt/a2" "" 0 []).
  eexists _, _. repeat split; try reflexivity; [lia | vm_compute; discriminate].
Defined.

(** * Further properties of the package *)

(** ** More on strings *)

Lemma append_assoc (a b c : string) : (a +:+ b) +:+ c = a +:+ b +:+ c.
Proof. induction a as [|x a IH]; simpl; [done|]. by rewrite IH. Qed.

Lemma length_append (a b : string) :
  String.length (a +:+ b) = (String.length a + String.length b)%nat.
Proof. induction a as [|x a IH]; simpl; [done|]. by rewrite IH. Qed.

Lemma take_bytes_app (s t : string) : take_bytes (String.length s) (s +:+ t) = s.
Proof. induction s as [|x s IH]; simpl; [by destruct t|]. by rewrite IH. Qed.

Lemma HasSuffix_app (s suffix : string) : HasSuffix (s +:+ suffix) suffix = true.
Proof.
  unfold HasSuffix. rewrite length_append.
  replace (String.length s + String.length suffix - String.length suffix)%nat
    with (String.length s) by lia.
  rewrite drop_bytes_app, String.eqb_refl, andb_true_r.
  apply Nat.leb_le. lia.
Qed.

Lemma TrimSuffix_app (s suffix : string) : TrimSuffix (s +:+ suffix) suffix = s.
Proof.
  unfold TrimSuffix. rewrite HasSuffix_app, length_append.
  replace (String.length s + String.length suffix - String.length suffix)%nat
    with (String.length s) by lia.
  apply take_bytes_app.
Qed.

Lemma slice_to_None (n : nat) (s : string) :
  slice_to n s = None ↔ (String.length s < n)%nat.
Proof.
  revert s. induction n as [|n IH]; intros s.
  - simpl. split; [done | lia].
  - destruct s as [|c s]; simpl.
    + split; [lia | done].
    + rewrite fmap_None, IH. lia.
Qed.

Lemma slice_to_Some (n : nat) (s t : string) :
  slice_to n s = Some t → String.length t = n ∧ ∃ rest, s = t +:+ rest.
Proof.
  revert s t. induction n as [|n IH]; intros s t.
  - simpl. intros [= <-]. split; [done|]. by exists s.
  - destruct s as [|c s]; simpl; [done|].
    destruct (slice_to n s) as [t'|] eqn:Hslice; [|done].
    cbn. intros [= <-]. destruct (IH _ _ Hslice) as (Hlen & rest & ->).
    split; [simpl; by rewrite Hlen|]. by exists rest.
Qed.

(** ** Canonical image names *)

(** X1: [GetImageCanonicalName] never leaves a colon or a slash in the name,
    keeps its length, and changes nothing in a name that is already
    canonical. *)
Theorem GetImageCanonicalName_canonical (image : string) :
  Contains (GetImageCanonicalName image) ":" = false
  ∧ Contains (GetImageCanonicalName image) "/" = false
  ∧ String.length (GetImageCanonicalName image) = String.length image
  ∧ GetImageCanonicalName (GetImageCanonicalName image) = GetImageCanonicalName image
  ∧ (Contains image ":" = false → Contains image "/" = false →
       GetImageCanonicalName image = image).
Proof.
  unfold GetImageCanonicalName.
  induction image as [|c image (IHcolon & IHslash & IHlen & IHidem & IHid)].
  - repeat split; reflexivity.
  - cbn [ReplaceByte Contains HasPrefix String.length].
    rewrite IHcolon, IHslash, IHlen, IHidem.
    destruct (Ascii.eqb_spec c ":") as [->|Hcolon]; cbn.
    { repeat split; try reflexivity; done. }
    destruct (Ascii.eqb_spec c "/") as [->|Hslash]; cbn.
    { repeat split; try reflexivity. done. }
    destruct (Ascii.eqb_spec c ":"); [done|]. cbn.
    destruct (Ascii.eqb_spec c "/"); [done|]. cbn.
    repeat split; try reflexivity.
    intros Hc Hs. by rewrite IHid.
Qed.

Lemma GetImageCanonicalName_canonical_witness :
  GetImageCanonicalName "longhornio/longhorn-engine-v1.1.0" = "longhornio-longhorn-engine-v1.1.0"
  ∧ GetImageCanonicalName "longhornio-longhorn-engine-v1.1.0" = "longhornio-longhorn-engine-v1.1.0".
Proof.
  split; [reflexivity|].
  refine (proj2 (proj2 (proj2 (proj2
    (GetImageCanonicalName_canonical "longhornio-longhorn-engine-v1.1.0")))) _ _); reflexivity.
Defined.

(** ** Name transforms, from the runtime name *)

Lemma TrimPrefix_restore (s prefix : string) :
  HasPrefix s prefix = true → prefix +:+ TrimPrefix s prefix = s.
Proof.
  intros Hprefix. unfold TrimPrefix. rewrite Hprefix.
  apply HasPrefix_spec in Hprefix as [rest ->]. by rewrite drop_bytes_app.
Qed.

(** X2: a pod name that carries the share-manager prefix is rebuilt from the
    name stripped of it, and a daemon-set name that carries the
    engine-image prefix likewise; a name without the prefix is returned
    as it is, so that rebuilding gives a longer name. *)
Theorem runtime_name_round_trip (podName dsName : string) :
  HasPrefix podName "share-manager-" = true →
  HasPrefix dsName "engine-image-" = true →
  GetShareManagerPodNameFromShareManagerName
    (GetShareManagerNameFromShareManagerPodName podName) = podName
  ∧ GetDaemonSetNameFromEngineImageName (GetEngineImageNameFromDaemonSetName dsName) = dsName
  ∧ (∀ other, HasPrefix other "share-manager-" = false →
        GetShareManagerNameFromShareManagerPodName other = other
        ∧ String.length (GetShareManagerPodNameFromShareManagerName
                           (GetShareManagerNameFromShareManagerPodName other))
          = (14 + String.length other)%nat).
Proof.
  intros Hpod Hds. split; [|split].
  - exact (TrimPrefix_restore podName "share-manager-" Hpod).
  - exact (TrimPrefix_restore dsName "engine-image-" Hds).
  - intros other Hother.
    assert (GetShareManagerNameFromShareManagerPodName other = other) as ->.
    { unfold GetShareManagerNameFromShareManagerPodName, TrimPrefix.
      change (LonghornLabelShareManager +:+ "-") with "share-manager-". by rewrite Hother. }
    split; [done|].
    exact (length_append "share-manager-" other).
Qed.

Lemma runtime_name_round_trip_witness :
  GetShareManagerPodNameFromShareManagerName
    (GetShareManagerNameFromShareManagerPodName "share-manager-pvc-1") = "share-manager-pvc-1".
Proof.
  refine (proj1 (runtime_name_round_trip "share-manager-pvc-1" "engine-image-ei-0123abcd" _ _));
    reflexivity.
Defined.

(** ** Generated names *)

(** X3: the source sizes [MaximumJobNameSize] so that a cron-job name and the
    pod suffix of eleven characters fit the 63 characters of a Kubernetes
    name: with a volume name of at most 40 characters and a job name of
    at most [MaximumJobNameSize], the cron-job name has at most 51
    characters. *)
Theorem GetCronJobNameForVolumeAndJob_length (vName job : string) :
  (String.length vName ≤ 40)%nat →
  (String.length job ≤ MaximumJobNameSize)%nat →
  String.length (GetCronJobNameForVolumeAndJob vName job)
  = (String.length vName + String.length job + 3)%nat
  ∧ (String.length (GetCronJobNameForVolumeAndJob vName job) + 11 ≤ 63)%nat
  ∧ HasSuffix (GetCronJobNameForVolumeAndJob vName job) recurringSuffix = true.
Proof.
  intros Hv Hjob. unfold GetCronJobNameForVolumeAndJob, MaximumJobNameSize in *.
  assert (String.length (vName +:+ "-" +:+ job +:+ recurringSuffix)
          = (String.length vName + String.length job + 3)%nat) as Hlen.
  { rewrite !length_append. unfold recurringSuffix. simpl. lia. }
  split; [done|]. split; [lia|].
  rewrite <- !append_assoc. apply HasSuffix_app.
Qed.

Lemma GetCronJobNameForVolumeAndJob_length_witness :
  (String.length (GetCronJobNameForVolumeAndJob "pvc-1" "backup") + 11 ≤ 63)%nat.
Proof.
  refine (proj1 (proj2 (GetCronJobNameForVolumeAndJob_length "pvc-1" "backup" _ _)));
    vm_compute; lia.
Defined.

Lemma append_inv_head (a b c : string) : a +:+ b = a +:+ c → b = c.
Proof. induction a as [|x a IH]; simpl; [done|]. intros [= Heq]. auto. Qed.

(** X4: the engine name and the replica name generated for one volume are
    never the same, whatever identifiers the random source gives, and
    both start with the name of the volume. *)
Theorem generated_names_differ {World : Type} (R : RandomSource World)
    (vName : string) (w1 w2 : World) :
  fst (GenerateEngineNameForVolume vName w1) ≠ fst (GenerateReplicaNameForVolume vName w2)
  ∧ HasPrefix (fst (GenerateEngineNameForVolume vName w1)) (vName +:+ "-e-") = true
  ∧ HasPrefix (fst (GenerateReplicaNameForVolume vName w2)) (vName +:+ "-r-") = true
  ∧ snd (GenerateEngineNameForVolume vName w1) = snd (RandomID w1)
  ∧ snd (GenerateReplicaNameForVolume vName w2) = snd (RandomID w2).
Proof.
  unfold GenerateEngineNameForVolume, GenerateReplicaNameForVolume.
  destruct (RandomID w1) as [id1 w1'], (RandomID w2) as [id2 w2']. cbn [fst snd].
  split; [|split; [|split]]; [| | |done].
  - intros Heq. apply append_inv_head in Heq. discriminate.
  - apply HasPrefix_spec. exists id1. by rewrite append_assoc.
  - apply HasPrefix_spec. exists id2. by rewrite append_assoc.
Qed.

(** X5: [GetInstanceManagerName] succeeds exactly for the types for which
    [GetInstanceManagerPrefix] gives a prefix; the name is then that
    prefix followed by one random identifier, and it starts with
    [instance-manager-].  For any other type the name is empty, the
    error is set and no identifier is drawn. *)
Theorem GetInstanceManagerName_prefix {World : Type} (R : RandomSource World)
    (T : InstanceManagerTypes) (imType : InstanceManagerType) (w : World) :
  (snd (fst (GetInstanceManagerName imType w)) = None ↔ GetInstanceManagerPrefix imType ≠ "")
  ∧ (GetInstanceManagerPrefix imType ≠ "" →
       GetInstanceManagerName imType w
       = ((GetInstanceManagerPrefix imType +:+ fst (RandomID w), None), snd (RandomID w))
       ∧ HasPrefix (GetInstanceManagerPrefix imType) instanceManagerPrefix = true)
  ∧ (GetInstanceManagerPrefix imType = "" →
       fst (fst (GetInstanceManagerName imType w)) = ""
       ∧ snd (GetInstanceManagerName imType w) = w).
Proof.
  unfold GetInstanceManagerName, GetInstanceManagerPrefix.
  destruct (RandomID w) as [id w'] eqn:Hid.
  destruct (decide (imType = InstanceManagerTypeEngine)); cbn [fst snd].
  { split; [done|]. split; [|done]. intros _. split; reflexivity. }
  destruct (decide (imType = InstanceManagerTypeReplica)); cbn [fst snd].
  { split; [done|]. split; [|done]. intros _. split; reflexivity. }
  split; [split; done|]. split; done.
Qed.

Lemma GetInstanceManagerName_prefix_witness :
  @GetInstanceManagerName nat exampleRandom exampleTypes "replica" 0
  = (("instance-manager-r-a1b2c3d4", None), 1).
Proof.
  refine (proj1 (proj1 (proj2 (GetInstanceManagerName_prefix exampleRandom exampleTypes
                                 "replica" 0)) _)).
  vm_compute. discriminate.
Defined.

(** X6: [GetBackingImageManagerName] panics exactly when the digest of the
    image or the disk UUID has fewer than four characters; otherwise the
    name has 31 characters and is built from the first four characters
    of each, so that two disks whose UUIDs start alike get one name. *)
Theorem GetBackingImageManagerName_slices (C : Collaborators) (image diskUUID : string) :
  (GetBackingImageManagerName image diskUUID = None
   ↔ (String.length (GetStringChecksum image) < 4 ∨ String.length diskUUID < 4)%nat)
  ∧ (∀ name, GetBackingImageManagerName image diskUUID = Some name →
        String.length name = 31%nat
        ∧ ∀ other, take_bytes 4 other = take_bytes 4 diskUUID →
            (4 ≤ String.length other)%nat →
            GetBackingImageManagerName image other = Some name).
Proof.
  unfold GetBackingImageManagerName.
  destruct (slice_to 4 (GetStringChecksum image)) as [c|] eqn:Hc;
    destruct (slice_to 4 diskUUID) as [u|] eqn:Hu; cbn [mbind option_bind];
    (split; [|try done]).
  - split; [done|]. intros [Hlt|Hlt]; apply slice_to_None in Hlt; congruence.
  - intros name.
    intros [= <-].
    destruct (slice_to_Some _ _ _ Hc) as [Hclen _].
    destruct (slice_to_Some _ _ _ Hu) as (Hulen & rest & ->).
    split.
    + change (String.length ("backing-image-manager-" +:+ (c +:+ "-" +:+ u)) = 31%nat).
      rewrite (length_append "backing-image-manager-"), (length_append c),
        (length_append "-"), Hclen, Hulen.
      reflexivity.
    + intros other Hsame Hlen.
      destruct (slice_to 4 other) as [u'|] eqn:Hu'; [|apply slice_to_None in Hu'; lia].
      destruct (slice_to_Some _ _ _ Hu') as (Hu'len & rest' & ->).
      rewrite <- Hulen in Hsame at 2. rewrite <- Hu'len in Hsame at 1.
      rewrite !take_bytes_app in Hsame. by subst.
  - split; [|done]. intros _. right. by apply slice_to_None.
  - split; [|done]. intros _. left. by apply slice_to_None.
  - split; [|done]. intros _. left. by apply slice_to_None.
Qed.

Lemma GetBackingImageManagerName_slices_witness :
  @GetBackingImageManagerName exampleCollaborators "longhornio/backing:v1" "abc" = None.
Proof.
  refine (proj2 (proj1 (GetBackingImageManagerName_slices exampleCollaborators
                          "longhornio/backing:v1" "abc")) _).
  right. vm_compute. lia.
Defined.

(** ** The text of a label set *)

Lemma LabelsToString_loop (order : list (string * string)) (res : string) :
  foldl (λ res kv, res +:+ (fst kv +:+ "=" +:+ snd kv +:+ ",")) res order
  = res +:+ foldr (λ kv rest, labelText kv +:+ "," +:+ rest) "" order.
Proof.
  revert res. induction order as [|kv order IH]; intros res; cbn [foldl fold_right].
  - by rewrite app_empty_r.
  - rewrite IH. unfold labelText. by rewrite !append_assoc.
Qed.

Lemma joinWith_comma (order : list (string * string)) :
  order ≠ [] →
  foldr (λ kv rest, labelText kv +:+ "," +:+ rest) "" order
  = joinWith "," (labelText <$> order) +:+ ",".
Proof.
  induction order as [|kv order IH]; [done|]. intros _.
  destruct order as [|kv' order].
  - cbn [fold_right fmap list_fmap joinWith]. by rewrite app_empty_r.
  - specialize (IH ltac:(done)).
    change (labelText kv +:+ "," +:+ foldr (λ kv rest, labelText kv +:+ "," +:+ rest) "" (kv' :: order)
            = (labelText kv +:+ "," +:+ joinWith "," (labelText <$> kv' :: order)) +:+ ",").
    rewrite IH. by rewrite !append_assoc.
Qed.

(** X7: whatever order the runtime visits the map in, [LabelsToString] gives
    the [key=value] texts of the entries in that order joined by commas,
    with no comma at the end: the loop writes one comma too many and
    [TrimSuffix] removes exactly that one.  An empty map gives the empty
    string. *)
Theorem LabelsToString_joins (labels : gmap string string) (res : string) :
  (LabelsToString labels res
   ↔ ∃ order, order ≡ₚ map_to_list labels ∧ res = joinWith "," (labelText <$> order))
  ∧ (labels = ∅ → LabelsToString labels res → res = "").
Proof.
  assert (∀ order, LabelsToStringIn order = joinWith "," (labelText <$> order)) as Hjoin.
  { intros order. unfold LabelsToStringIn. rewrite LabelsToString_loop.
    destruct order as [|kv order]; [reflexivity|].
    rewrite joinWith_comma by done. cbn [String.append]. apply TrimSuffix_app. }
  split.
  - unfold LabelsToString. split; intros (order & Hperm & ->); exists order;
      (split; [done|]); by rewrite Hjoin.
  - intros -> (order & Hperm & ->). rewrite map_to_list_empty in Hperm.
    apply Permutation_nil_r in Hperm as ->. reflexivity.
Qed.

Lemma LabelsToString_joins_witness :
  LabelsToString ∅ "" ∧ (∀ res, LabelsToString ∅ res → res = "").
Proof.
  split.
  - exists []. split; [by rewrite map_to_list_empty | reflexivity].
  - intros res. exact (proj2 (LabelsToString_joins ∅ res) eq_refl).
Defined.

(** ** Error classification under wrapping *)

(** X8: an error whose text contains the text of another error is classified
    at least as that error is: wrapping an error in a longer message
    never loses its classification. *)
Theorem classification_survives_wrapping {E1 E2 : Type} (G1 : GoError E1) (G2 : GoError E2)
    (inner : E1) (outer : E2) (pre post : string) :
  Error outer = pre +:+ Error inner +:+ post →
  (ErrorIsNotFound inner = true → ErrorIsNotFound outer = true)
  ∧ (ErrorAlreadyExists inner = true → ErrorAlreadyExists outer = true).
Proof.
  intros Htext. unfold ErrorIsNotFound, ErrorAlreadyExists. rewrite Htext.
  split; intros Hinner; apply Contains_spec in Hinner as (a & b & ->); apply Contains_spec;
    exists (pre +:+ a), (b +:+ post); by rewrite !append_assoc.
Qed.

Lemma classification_survives_wrapping_witness :
  ErrorIsNotFound ("failed to get volume: cannot find pvc-1" : errorString) = true.
Proof.
  refine (proj1 (classification_survives_wrapping NotFoundError_error errorString_error
                   {| NotFoundError.Name := "pvc-1" |}
                   ("failed to get volume: cannot find pvc-1" : errorString)
                   "failed to get volume: " "" _) _); reflexivity.
Defined.

(** ** Selectors and label sets *)


(** X10: the labels of a cron-job pod are part of the labels of its cron job,
    and the labels of the volume are part of both: the cron-job labels
    add only the managed-by label. *)
Theorem cron_job_pod_labels_within (volumeName : string) (job : RecurringJob) :
  GetCronJobPodLabels volumeName job ⊆ GetCronJobLabels volumeName job
  ∧ GetVolumeLabels volumeName ⊆ GetCronJobPodLabels volumeName job
  ∧ GetCronJobLabels volumeName job
    = <[GetLonghornLabelKey LonghornLabelManagedBy := ControlPlaneName]>
        (GetCronJobPodLabels volumeName job)
  ∧ GetCronJobPodLabels volumeName job !! GetLonghornLabelKey LonghornLabelManagedBy = None.
Proof.
  unfold GetCronJobPodLabels, GetCronJobLabels, GetVolumeLabels,
    GetBaseLabelsForSystemManagedComponent.
  split; [|split; [|split]].
  - do 2 apply insert_mono. apply map_empty_subseteq.
  - apply map_singleton_subseteq_l. label_lookup. reflexivity.
  - apply map_eq. intros key.
    destruct (decide (key = GetLonghornLabelKey LonghornLabelManagedBy)) as [->|Hmanaged].
    { label_lookup. reflexivity. }
    rewrite (lookup_insert_ne _ (GetLonghornLabelKey LonghornLabelManagedBy)) by done.
    destruct (decide (key = GetLonghornLabelKey LonghornLabelCronJobTask)) as [->|Htask].
    { by rewrite !lookup_insert_eq. }
    rewrite !(lookup_insert_ne _ (GetLonghornLabelKey LonghornLabelCronJobTask)) by done.
    destruct (decide (key = LonghornLabelVolume)) as [->|Hvolume].
    { by rewrite !lookup_insert_eq. }
    rewrite !(lookup_insert_ne _ LonghornLabelVolume) by done.
    rewrite lookup_empty. by apply lookup_singleton_ne.
  - label_lookup. reflexivity.
Qed.

(** X11: every label set built on the base labels still carries the
    managed-by label of the control plane, and its own component value
    where it sets one, whatever the attributes are. *)
Theorem managed_by_label_kept (name nodeID diskUUID volumeName : string) (job : RecurringJob) :
  GetEngineImageLabels name !! GetLonghornLabelKey LonghornLabelManagedBy = Some ControlPlaneName
  ∧ GetShareManagerInstanceLabel name !! GetLonghornLabelKey LonghornLabelManagedBy
    = Some ControlPlaneName
  ∧ GetCronJobLabels volumeName job !! GetLonghornLabelKey LonghornLabelManagedBy
    = Some ControlPlaneName
  ∧ GetBackingImageLabels !! GetLonghornLabelKey LonghornLabelManagedBy = Some ControlPlaneName
  ∧ GetBackingImageManagerLabels nodeID diskUUID !! GetLonghornLabelKey LonghornLabelManagedBy
    = Some ControlPlaneName
  ∧ GetBackingImageDataSourceLabels name nodeID diskUUID
      !! GetLonghornLabelKey LonghornLabelManagedBy = Some ControlPlaneName
  ∧ GetEngineImageLabels name !! GetLonghornLabelComponentKey = Some LonghornLabelEngineImage
  ∧ GetBackingImageLabels !! GetLonghornLabelComponentKey = Some LonghornLabelBackingImage
  ∧ GetBackingImageManagerLabels nodeID diskUUID !! GetLonghornLabelComponentKey
    = Some LonghornLabelBackingImageManager
  ∧ GetBackingImageDataSourceLabels name nodeID diskUUID !! GetLonghornLabelComponentKey
    = Some LonghornLabelBackingImageDataSource.
Proof.
  unfold GetEngineImageLabels, GetShareManagerInstanceLabel, GetCronJobLabels,
    GetBackingImageLabels, GetBackingImageManagerLabels, GetBackingImageDataSourceLabels,
    GetBaseLabelsForSystemManagedComponent.
  repeat split;
    repeat match goal with
           | |- context [decide (?s ≠ "")] => destruct (decide (s ≠ ""))
           end;
    label_lookup; reflexivity.
Qed.

(** X12: the labels of an instance manager and of a share manager, when the
    call returns, hold the component label of their kind and the
    managed-by label: the component selector matches them. *)
Theorem component_label_within (C : Collaborators) (node name image : string)
    (managerType : InstanceManagerType) (imLabels smLabels : gmap string string) :
  GetInstanceManagerLabels node image managerType = Some imLabels →
  GetShareManagerLabels name image = Some smLabels →
  GetInstanceManagerComponentLabel ⊆ imLabels
  ∧ GetShareManagerComponentLabel ⊆ smLabels
  ∧ imLabels !! GetLonghornLabelKey LonghornLabelManagedBy = Some ControlPlaneName
  ∧ smLabels !! GetLonghornLabelKey LonghornLabelManagedBy = Some ControlPlaneName.
Proof.
  unfold GetInstanceManagerLabels, GetShareManagerLabels, GetInstanceManagerComponentLabel,
    GetShareManagerComponentLabel, GetBaseLabelsForSystemManagedComponent.
  destruct (GetInstanceManagerImageChecksumName _) as [imi|];
    destruct (GetShareManagerImageChecksumName _) as [smi|]; cbn [mbind option_bind];
    repeat match goal with
           | |- context [decide (?s ≠ "")] => destruct (decide (s ≠ ""))
           end;
    intros Him Hsm; simplify_eq;
    (split; [apply map_singleton_subseteq_l
            |split; [apply map_singleton_subseteq_l|split]]);
    label_lookup; reflexivity.
Qed.

Lemma component_label_within_witness :
  ∃ labels, @GetInstanceManagerLabels exampleCollaborators "node-1" "longhornio/im:v1" "engine"
            = Some labels
    ∧ GetInstanceManagerComponentLabel ⊆ labels.
Proof.
  eexists. split; [reflexivity|].
  refine (proj1 (component_label_within exampleCollaborators "node-1" "sm-1" "longhornio/im:v1"
                   "engine" _ _ eq_refl eq_refl)).
Defined.

(** ** Checksum names across kinds *)





(** ** CPU reservations that are percentages *)

(** X14: for two values that parse and are not negative, the validator
    accepts exactly when their sum is at most forty; and whether a pair
    is accepted does not depend on which of the two is the engine's. *)
Theorem ValidateCPUReservationValues_percentages (e r : string) (a b : Z) :
  GoInt.Atoi e = Some a → GoInt.Atoi r = Some b → (0 ≤ a)%Z → (0 ≤ b)%Z →
  (ValidateCPUReservationValues e r = None ↔ (a + b ≤ 40)%Z)
  ∧ (ValidateCPUReservationValues e r = None ↔ ValidateCPUReservationValues r e = None)
  ∧ ((40 < a + b)%Z → ValidateCPUReservationValues e r = Some (CPUSumOutOfRange a b)).
Proof.
  intros Ha Hb Hapos Hbpos.
  assert (ValidateCPUReservationValues e r = None ↔ (a + b ≤ 40)%Z) as Hiff.
  { rewrite ValidateCPUReservationValues_nil_exact. split.
    - intros (a' & b' & Ha' & Hb' & Hsum). simplify_eq. lia.
    - intros Hsum. exists a, b. split; [done|]. split; [done|]. lia. }
  split; [done|]. split.
  - rewrite !ValidateCPUReservationValues_nil_iff. unfold GoInt.add.
    split; intros (x & y & Hx & Hy & Hsum); exists y, x; rewrite Z.add_comm; done.
  - intros Hbig. unfold ValidateCPUReservationValues in *. rewrite Ha, Hb in *.
    destruct (_ || _); [done|]. exfalso. assert (a + b ≤ 40)%Z by (by apply Hiff). lia.
Qed.

Lemma ValidateCPUReservationValues_percentages_witness :
  ValidateCPUReservationValues "12" "28" = None.
Proof.
  refine (proj2 (proj1 (ValidateCPUReservationValues_percentages "12" "28" 12 28 _ _ _ _)) _);
    try reflexivity; lia.
Defined.

(** ** More on disk annotations *)

Section DiskSteady.
Context {World : Type} `{Collaborators} `{FileSystem World}.
Variable info : string → errorString + DiskInfo.
Hypothesis stable : ∀ path w, fst (GetDiskInfo path w) = info path.

Lemma checkDisks_accepts_iff (disks : list DiskSpecWithName) (w : World) :
  (∃ st w', checkDisks disks {| validDisks := ∅; existFsid := ∅ |} w = (inr st, w'))
  ↔ validDiskList info disks.
Proof.
  pose proof (checkDisks_decides info stable disks [] _ w (loopInvariant_init info)) as Hloop.
  cbn [app] in Hloop.
  destruct (checkDisks disks _ w) as [[err|st] w'].
  - split; [by intros (? & ? & ?) | done].
  - split; [intros _; by destruct Hloop | intros _; by eexists _, _].
Qed.

Lemma validDiskList_permutation (l1 l2 : list DiskSpecWithName) :
  l1 ≡ₚ l2 → validDiskList info l1 → validDiskList info l2.
Proof.
  intros Hperm (Hall & Hpaths & Hfsids & Hnames).
  split; [by rewrite <- Hperm|]. split; [by rewrite <- Hperm|].
  split; by rewrite <- Hperm.
Qed.

Lemma accepted_map (disks : list DiskSpecWithName) (st : loopState) (w w' : World) :
  checkDisks disks {| validDisks := ∅; existFsid := ∅ |} w = (inr st, w') →
  ∀ name spec, validDisks st !! name = Some spec
               ↔ ∃ d, d ∈ disks ∧ nameOf info d = name ∧ specOf d = spec.
Proof.
  intros Hloop.
  pose proof (checkDisks_decides info stable disks [] _ w (loopInvariant_init info)) as Hinv.
  rewrite Hloop in Hinv. cbn [app] in Hinv. by destruct Hinv as (_ & Hdisks & _).
Qed.

End DiskSteady.

(** X15: on a filesystem whose metadata does not change during the call, the
    call returns a mapping exactly when the annotation decodes to a
    list that is acceptable as a whole: every path is non-empty and
    resolves, every reservation is within bounds, every tag list is
    accepted, and paths, filesystem ids and names are distinct.  No
    other input is accepted and no such input is refused. *)
Theorem CreateDisksFromAnnotation_accepts_iff {World : Type} (C : Collaborators)
    (F : FileSystem World) (info : string → errorString + DiskInfo)
    (annotation : string) (w : World) :
  (∀ path w0, fst (GetDiskInfo path w0) = info path) →
  ((∃ m w', CreateDisksFromAnnotation annotation w = ((Some m, None), w'))
   ↔ ∃ disks, json_Unmarshal annotation = inr disks ∧ validDiskList info disks)
  ∧ ((∃ err w', CreateDisksFromAnnotation annotation w = ((None, Some err), w'))
     ↔ ¬ ∃ disks, json_Unmarshal annotation = inr disks ∧ validDiskList info disks).
Proof.
  intros Hstable. unfold CreateDisksFromAnnotation.
  destruct (json_Unmarshal annotation) as [err|disks].
  { split; split.
    - by intros (? & ? & ?).
    - by intros (? & ? & ?).
    - intros _ (? & ? & ?). done.
    - intros _. by eexists _, _. }
  pose proof (checkDisks_accepts_iff info Hstable disks w) as Hiff.
  destruct (checkDisks disks _ w) as [[err|st] w'].
  - assert (¬ validDiskList info disks) as Hinvalid.
    { intros Hvalid. apply Hiff in Hvalid as (? & ? & ?). done. }
    split; split.
    + by intros (? & ? & ?).
    + intros (disks' & [= <-] & Hvalid). done.
    + intros _ (disks' & [= <-] & Hvalid). done.
    + intros _. by eexists _, _.
  - assert (validDiskList info disks) as Hvalid by (apply Hiff; by eexists _, _).
    split; split.
    + intros _. by exists disks.
    + intros _. by eexists _, _.
    + by intros (? & ? & ?).
    + intros Hnone. exfalso. apply Hnone. by exists disks.
Qed.

Lemma CreateDisksFromAnnotation_accepts_iff_witness :
  ¬ ∃ disks, @json_Unmarshal exampleCollaborators bindMountAnnotation = inr disks
             ∧ @validDiskList exampleCollaborators exampleDiskInfo disks.
Proof.
  refine (proj1 (proj2 (CreateDisksFromAnnotation_accepts_iff exampleCollaborators exampleFS
                          exampleDiskInfo bindMountAnnotation [] _)) _).
  - intros path w0. reflexivity.
  - eexists _, _. vm_compute. reflexivity.
Defined.

(** X16: on a filesystem whose metadata does not change during the call, the
    mapping does not depend on the order of the entries: two annotations
    whose decoded lists are permutations of each other are both refused
    or both accepted, and then with the same mapping. *)
Theorem accepted_mapping_order_independent {World : Type} (C : Collaborators)
    (F : FileSystem World) (info : string → errorString + DiskInfo)
    (annotation1 annotation2 : string) (disks1 disks2 : list DiskSpecWithName)
    (w1 w2 : World) :
  (∀ path w0, fst (GetDiskInfo path w0) = info path) →
  json_Unmarshal annotation1 = inr disks1 →
  json_Unmarshal annotation2 = inr disks2 →
  disks1 ≡ₚ disks2 →
  fst (fst (CreateDisksFromAnnotation annotation1 w1))
  = fst (fst (CreateDisksFromAnnotation annotation2 w2)).
Proof.
  intros Hstable Hjson1 Hjson2 Hperm. unfold CreateDisksFromAnnotation.
  rewrite Hjson1, Hjson2.
  pose proof (checkDisks_accepts_iff info Hstable disks1 w1) as Hiff1.
  pose proof (checkDisks_accepts_iff info Hstable disks2 w2) as Hiff2.
  pose proof (accepted_map info Hstable disks1) as Hmap1.
  pose proof (accepted_map info Hstable disks2) as Hmap2.
  destruct (checkDisks disks1 _ w1) as [[err1|st1] w1'] eqn:Hloop1;
    destruct (checkDisks disks2 _ w2) as [[err2|st2] w2'] eqn:Hloop2; cbn [fst].
  - reflexivity.
  - exfalso. assert (validDiskList info disks2) as Hvalid by (apply Hiff2; by eexists _, _).
    apply (validDiskList_permutation info disks2 disks1) in Hvalid; [|done].
    apply Hiff1 in Hvalid as (? & ? & ?). done.
  - exfalso. assert (validDiskList info disks1) as Hvalid by (apply Hiff1; by eexists _, _).
    apply (validDiskList_permutation info disks1 disks2) in Hvalid; [|done].
    apply Hiff2 in Hvalid as (? & ? & ?). done.
  - f_equal. apply map_eq. intros name. apply option_eq. intros spec.
    rewrite (Hmap1 st1 w1 w1' Hloop1), (Hmap2 st2 w2 w2' Hloop2).
    split; intros (d & Hd & Hrest); exists d; (split; [|done]).
    + by rewrite <- Hperm.
    + by rewrite Hperm.
Qed.

Lemma accepted_mapping_order_independent_witness :
  fst (fst (@CreateDisksFromAnnotation _ orderCollaborators exampleFS exampleAnnotation []))
  = fst (fst (@CreateDisksFromAnnotation _ orderCollaborators exampleFS swappedAnnotation [])).
Proof.
  refine (accepted_mapping_order_independent orderCollaborators exampleFS exampleDiskInfo
            exampleAnnotation swappedAnnotation exampleDisks swappedDisks [] [] _ _ _ _).
  - intros path w0. reflexivity.
  - vm_compute. reflexivity.
  - vm_compute. reflexivity.
  - apply Permutation_swap.
Defined.

Section DiskLookups.
Context {World : Type} `{Collaborators} `{FileSystem World}.

(** What an accepted entry leaves in the state. *)
Lemma checkDisk_inr (d : DiskSpecWithName) (st st' : loopState) (w w' : World) :
  checkDisk d st w = (inr st', w') →
  ∃ diskInfo, GetDiskInfo (pathOf d) w = (inr diskInfo, w')
    ∧ existFsid st !! Fsid diskInfo = None
    ∧ existFsid st' = <[Fsid diskInfo := pathOf d]> (existFsid st).
Proof.
  unfold checkDisk, bind, getDiskInfo, validateTags, fail, ret, pathOf.
  destruct (decide (Path (embedded d) = "")); [done|].
  destruct (GetDiskInfo (Path (embedded d)) w) as [[err|diskInfo] w1]; [done|].
  destruct (pathInUse (validDisks st) (Path (embedded d))); [done|].
  destruct (existFsid st !! Fsid diskInfo) eqn:Hfree; [done|].
  destruct (_ || _); [done|].
  destruct (ValidateTags (Tags (embedded d))) as [err|tags]; [done|].
  destruct (validDisks st !! _); [done|].
  intros [= <- <-]. by exists diskInfo.
Qed.

(** An entry is looked up at most once, and exactly once when it is
    accepted. *)
Lemma checkDisk_world (d : DiskSpecWithName) (st : loopState) (w : World) :
  (snd (checkDisk d st w) = w ∧ ∃ err, fst (checkDisk d st w) = inl err)
  ∨ snd (checkDisk d st w) = snd (GetDiskInfo (pathOf d) w).
Proof.
  unfold checkDisk, bind, getDiskInfo, validateTags, fail, ret, pathOf.
  destruct (decide (Path (embedded d) = "")); [left; by eauto|]. right.
  destruct (GetDiskInfo (Path (embedded d)) w) as [[err|diskInfo] w1]; [done|].
  destruct (pathInUse (validDisks st) (Path (embedded d))); [done|].
  destruct (existFsid st !! Fsid diskInfo); [done|].
  destruct (_ || _); [done|].
  destruct (ValidateTags (Tags (embedded d))) as [err|tags]; [done|].
  by destruct (validDisks st !! _).
Qed.

Lemma checkDisks_world (disks : list DiskSpecWithName) (st : loopState) (w : World) :
  ∃ n, (n ≤ length disks)%nat
    ∧ snd (checkDisks disks st w) = lookups (take n (pathOf <$> disks)) w
    ∧ ((∃ st', fst (checkDisks disks st w) = inr st') → n = length disks).
Proof.
  revert st w. induction disks as [|d disks IH]; intros st w.
  - exists 0. repeat split; cbn; lia.
  - cbn [checkDisks]. unfold bind.
    destruct (checkDisk_world d st w) as [[Hsame [err Herr]]|Hlooked].
    + destruct (checkDisk d st w) as [[err'|st1] w1]; [|done]. cbn in Hsame. subst w1.
      exists 0. split; [lia|]. split; [done|]. by intros [? ?].
    + destruct (checkDisk d st w) as [[err|st1] w1]; cbn [snd] in Hlooked.
      * exists 1. cbn. split; [lia|]. split; [done|]. by intros [? ?].
      * destruct (IH st1 w1) as (n & Hn & Hworld & Hfull).
        exists (S n). cbn [length fmap list_fmap take]. split; [lia|].
        split; [|intros Hok; by rewrite Hfull].
        rewrite Hworld. unfold lookups. cbn [foldl]. by rewrite <- Hlooked.
Qed.

End DiskLookups.

(** X17: on any filesystem, the call looks up the paths of the entries in
    their order, each at most once, and nothing else: when it returns a
    mapping it has looked up every path exactly once; when it fails it
    has looked up the paths of a prefix of the list; and when the
    annotation does not decode it has not touched the filesystem. *)
Theorem CreateDisksFromAnnotation_lookups {World : Type} (C : Collaborators)
    (F : FileSystem World) (annotation : string) (w : World) :
  (∀ err, json_Unmarshal annotation = inl err →
      snd (CreateDisksFromAnnotation annotation w) = w)
  ∧ (∀ disks, json_Unmarshal annotation = inr disks →
        (∃ n, (n ≤ length disks)%nat
           ∧ snd (CreateDisksFromAnnotation annotation w)
             = lookups (take n (pathOf <$> disks)) w)
        ∧ (∀ m, fst (CreateDisksFromAnnotation annotation w) = (Some m, None) →
              snd (CreateDisksFromAnnotation annotation w) = lookups (pathOf <$> disks) w)).
Proof.
  unfold CreateDisksFromAnnotation. split.
  - by intros err ->.
  - intros disks ->.
    destruct (checkDisks_world disks {| validDisks := ∅; existFsid := ∅ |} w)
      as (n & Hn & Hworld & Hfull).
    destruct (checkDisks disks _ w) as [[err|st] w'] eqn:Hloop; cbn [fst snd] in *.
    + split; [by exists n | done].
    + split; [by exists n|]. intros m _. rewrite Hworld, Hfull by eauto.
      by rewrite firstn_all2 by (by rewrite length_fmap).
Qed.

Lemma CreateDisksFromAnnotation_lookups_witness :
  snd (@CreateDisksFromAnnotation _ exampleCollaborators exampleFS exampleAnnotation [])
  = ["/mnt/a"; "/mnt/b"].
Proof.
  refine (proj2 (proj2 (CreateDisksFromAnnotation_lookups exampleCollaborators exampleFS
                          exampleAnnotation []) exampleDisks _) _ _).
  - vm_compute. reflexivity.
  - vm_compute. reflexivity.
Defined.

Section DiskPrecedence.
Context {World : Type} `{Collaborators} `{FileSystem World}.
Variable info : string → errorString + DiskInfo.
Hypothesis stable : ∀ path w, fst (GetDiskInfo path w) = info path.

(** The filesystem ids the loop has seen map to the paths of the entries
    they come from. *)
Lemma existFsid_paths (disks : list DiskSpecWithName) (st st' : loopState) (w w' : World) :
  checkDisks disks st w = (inr st', w') →
  ∀ fsid path, existFsid st' !! fsid = Some path →
    existFsid st !! fsid = Some path
    ∨ ∃ d, d ∈ disks ∧ fsidOf info d = fsid ∧ pathOf d = path.
Proof.
  revert st w. induction disks as [|d disks IH]; intros st w.
  - intros [= <- <-] fsid path Hlookup. by left.
  - cbn [checkDisks]. unfold bind.
    destruct (checkDisk d st w) as [[err|st1] w1] eqn:Hstep; [done|].
    intros Hrest fsid path Hlookup.
    destruct (IH _ _ Hrest _ _ Hlookup) as [Hold | (d' & Hd' & Hfsid & Hpath)].
    + apply checkDisk_inr in Hstep as (diskInfo & Hinfo & Hfree & Hnew).
      rewrite Hnew in Hold. apply lookup_insert_Some in Hold as [[<- <-] | [_ Hold]].
      * right. exists d. split; [by left|]. split; [|done].
        unfold fsidOf. rewrite <- (stable (pathOf d) w), Hinfo. reflexivity.
      * by left.
    + right. exists d'. split; [by right | done].
Qed.

Lemma accepted_prefix (pre : list DiskSpecWithName) (w : World) :
  validDiskList info pre →
  ∃ st w1, checkDisks pre {| validDisks := ∅; existFsid := ∅ |} w = (inr st, w1)
    ∧ loopInvariant info pre st.
Proof.
  intros Hvalid.
  pose proof (checkDisks_decides info stable pre [] _ w (loopInvariant_init info)) as Hloop.
  cbn [app] in Hloop.
  destruct (checkDisks pre _ w) as [[err|st] w1]; [done|]. by exists st, w1.
Qed.

End DiskPrecedence.

(** X18: on a filesystem whose metadata does not change during the call, an
    entry that repeats the path of an accepted earlier entry always gets
    the duplicate-path error: its lookup succeeds as the earlier one did,
    and the check of the path comes before the check of the filesystem
    id, which the entry repeats as well. *)
Theorem repeated_path_error {World : Type} (C : Collaborators) (F : FileSystem World)
    (info : string → errorString + DiskInfo) (annotation : string)
    (pre post : list DiskSpecWithName) (d d0 : DiskSpecWithName) (w : World) :
  (∀ path w0, fst (GetDiskInfo path w0) = info path) →
  json_Unmarshal annotation = inr (pre ++ d :: post)%list →
  validDiskList info pre →
  d0 ∈ pre → pathOf d0 = pathOf d →
  fst (CreateDisksFromAnnotation annotation w) = (None, Some (ErrDuplicatePath (pathOf d)))
  ∧ fsidOf info d ∈ (fsidOf info <$> pre).
Proof.
  intros Hstable Hjson Hvalid Hd0 Hsame.
  destruct (accepted_prefix info Hstable pre w Hvalid) as (st & w1 & Hpre & Hinv).
  split.
  - unfold CreateDisksFromAnnotation. rewrite Hjson, checkDisks_app, Hpre.
    apply checkDisks_records_paths in Hpre as [Hrecorded _].
    destruct (Hrecorded d0 Hd0) as [Hnonempty Hinuse]. rewrite Hsame in Hnonempty, Hinuse.
    cbn [checkDisks]. unfold bind. rewrite checkDisk_repeated_path by done.
    pose proof (Hstable (pathOf d) w1) as Hinfo.
    destruct (GetDiskInfo (pathOf d) w1) as [[err|diskInfo] w2]; cbn [fst] in *; [|done].
    destruct Hvalid as (Hall & _). rewrite Forall_forall in Hall.
    destruct (Hall d0 Hd0) as (_ & (diskInfo & Hok & _) & _). congruence.
  - apply list_elem_of_fmap. exists d0. split; [|done]. unfold fsidOf. by rewrite Hsame.
Qed.

Lemma repeated_path_error_witness :
  fst (@CreateDisksFromAnnotation _ exampleCollaborators exampleFS repeatedAnnotation [])
  = (None, Some (ErrDuplicatePath "/mnt/a")).
Proof.
  refine (proj1 (repeated_path_error exampleCollaborators exampleFS exampleDiskInfo
                   repeatedAnnotation [diskEntry "/mnt/a" "" 0 []] []
                   (diskEntry "/mnt/a" "" 0 []) (diskEntry "/mnt/a" "" 0 []) [] _ _ _ _ _)).
  - intros path w0. reflexivity.
  - vm_compute. reflexivity.
  - split; [|split; [|split]].
    + apply Forall_singleton. split; [vm_compute; discriminate|].
      split; eexists; [split; [reflexivity | simpl; lia] | reflexivity].
    + apply NoDup_singleton.
    + apply NoDup_singleton.
    + apply NoDup_singleton.
  - by left.
  - reflexivity.
Defined.

(** X19: on a filesystem whose metadata does not change during the call, an
    entry with a new path on the filesystem of an accepted earlier entry
    gets the same-filesystem error, which names the path of the entry,
    the path of that earlier entry and the filesystem id, whatever the
    reservation, the tags and the name of the entry are. *)
Theorem same_filesystem_error {World : Type} (C : Collaborators) (F : FileSystem World)
    (info : string → errorString + DiskInfo) (annotation : string)
    (pre post : list DiskSpecWithName) (d d0 : DiskSpecWithName) (diskInfo : DiskInfo)
    (w : World) :
  (∀ path w0, fst (GetDiskInfo path w0) = info path) →
  json_Unmarshal annotation = inr (pre ++ d :: post)%list →
  validDiskList info pre →
  pathOf d ≠ "" → pathOf d ∉ (pathOf <$> pre) →
  info (pathOf d) = inr diskInfo →
  d0 ∈ pre → fsidOf info d0 = Fsid diskInfo →
  fst (CreateDisksFromAnnotation annotation w)
  = (None, Some (ErrSameFilesystem (pathOf d) (pathOf d0) (Fsid diskInfo))).
Proof.
  intros Hstable Hjson Hvalid Hnonempty Hnew Hinfo Hd0 Hfsid.
  destruct (accepted_prefix info Hstable pre w Hvalid) as (st & w1 & Hpre & Hinv).
  destruct Hinv as ((_ & _ & Hnodup & _) & Hdisks & Hfsids & _).
  assert (existFsid st !! Fsid diskInfo = Some (pathOf d0)) as Hexisting.
  { destruct (proj2 (Hfsids (Fsid diskInfo))) as [path Hpath].
    { apply list_elem_of_fmap. by exists d0. }
    destruct (existFsid_paths info Hstable pre _ _ _ _ Hpre _ _ Hpath)
      as [Hempty | (d' & Hd' & Hfsid' & <-)];
      [cbn [existFsid] in Hempty; by rewrite lookup_empty in Hempty|].
    rewrite Hpath. do 2 f_equal.
    apply (NoDup_fmap_eq (fsidOf info) pre); [done..|congruence]. }
  assert (pathInUse (validDisks st) (pathOf d) = false) as Hfree.
  { apply pathInUse_false. intros name spec Hlookup Hpath. apply Hnew.
    apply Hdisks in Hlookup as (d' & Hd' & _ & <-).
    apply list_elem_of_fmap. by exists d'. }
  unfold CreateDisksFromAnnotation. rewrite Hjson, checkDisks_app, Hpre.
  cbn [checkDisks]. unfold bind at 1. unfold checkDisk, bind, getDiskInfo.
  unfold pathOf in *.
  destruct (decide (Path (embedded d) = "")); [done|].
  pose proof (Hstable (Path (embedded d)) w1) as Hlook. rewrite Hinfo in Hlook.
  destruct (GetDiskInfo (Path (embedded d)) w1) as [[err|diskInfo'] w2]; cbn [fst] in Hlook;
    [done|].
  injection Hlook as ->. by rewrite Hfree, Hexisting.
Qed.

Lemma same_filesystem_error_witness :
  fst (@CreateDisksFromAnnotation _ exampleCollaborators exampleFS bindMountAnnotation [])
  = (None, Some (ErrSameFilesystem "/mnt/a2" "/mnt/a" "F1")).
Proof.
  refine (same_filesystem_error exampleCollaborators exampleFS exampleDiskInfo
            bindMountAnnotation [diskEntry "/mnt/a" "" 0 []] []
            (diskEntry "/mnt/a2" "" 0 []) (diskEntry "/mnt/a" "" 0 [])
            {| Fsid := "F1"; DiskInfo_Path := "/mnt/a2"; StorageMaximum := 1000;
               StorageAvailable := 800 |} [] _ _ _ _ _ _ _ _).
  - intros path w0. reflexivity.
  - vm_compute. reflexivity.
  - split; [|split; [|split]].
    + apply Forall_singleton. split; [vm_compute; discriminate|].
      split; eexists; [split; [reflexivity | simpl; lia] | reflexivity].
    + apply NoDup_singleton.
    + apply NoDup_singleton.
    + apply NoDup_singleton.
  - vm_compute. discriminate.
  - apply (bool_decide_unpack _). vm_compute. reflexivity.
  - reflexivity.
  - by left.
  - reflexivity.
Defined.

(** ** The default disk within the bounds of an annotation *)

(** X20: on a disk whose capacity times thirty fits 64 bits,
    [CreateDefaultDisk] returns exactly one entry, and its reservation
    lies within [[0, StorageMaximum]], the bound that
    [CreateDisksFromAnnotation] enforces on the entries of an
    annotation. *)
Theorem CreateDefaultDisk_within_bounds {World : Type} (F : FileSystem World)
    (dataPath : string) (w w1 w2 : World) (diskInfo : DiskInfo) :
  CreateDiskPathReplicaSubdirectory dataPath w = (None, w1) →
  GetDiskInfo dataPath w1 = (inr diskInfo, w2) →
  (0 ≤ StorageMaximum diskInfo)%Z → (StorageMaximum diskInfo * 30 < 2 ^ 63)%Z →
  ∃ m, CreateDefaultDisk dataPath w = ((Some m, None), w2)
    ∧ size m = 1
    ∧ ∀ name spec, m !! name = Some spec →
        name = DefaultDiskPrefix +:+ Fsid diskInfo
        ∧ Path spec = DiskInfo_Path diskInfo
        ∧ (0 ≤ StorageReserved spec ≤ StorageMaximum diskInfo)%Z.
Proof.
  intros Hdir Hinfo Hpos Hfit.
  eexists. split; [by apply (CreateDefaultDisk_thirty_percent dataPath w w1 w2 diskInfo)|].
  split; [apply map_size_singleton|].
  intros name spec Hlookup. apply lookup_singleton_Some in Hlookup as [<- <-].
  split; [done|]. split; [done|]. cbn [StorageReserved].
  split.
  - apply Z.div_pos; lia.
  - apply Z.div_le_upper_bound; lia.
Qed.

Lemma CreateDefaultDisk_within_bounds_witness :
  ∃ m, @CreateDefaultDisk _ exampleFS "/mnt/a" [] = ((Some m, None), ["/mnt/a"]) ∧ size m = 1.
Proof.
  destruct (CreateDefaultDisk_within_bounds exampleFS "/mnt/a" [] [] ["/mnt/a"]
              {| Fsid := "F1"; DiskInfo_Path := "/mnt/a"; StorageMaximum := 1000;
                 StorageAvailable := 800 |})
    as (m & Hresult & Hsize & _).
  - reflexivity.
  - reflexivity.
  - simpl. lia.
  - simpl. lia.
  - exists m. split; [exact Hresult | exact Hsize].
Defined.
